(** * ssh-deploy-release: the deployment pipeline of [src/ssh-deploy-release.js]

    A shallow embedding of the class exported by [ssh-deploy-release.js]:
    its two public entry points [deployRelease] and [removeRelease], the
    twenty-one tasks they chain with [async.series], and the helper
    [middlewareCallbackExecute].

    The tasks are written in continuation-passing style in the source: each
    receives a callback [done] and either calls it (possibly with an error
    argument), never calls it, throws, or ends the process.  Every path of
    every task calls [done] as its last action, so a task is embedded in
    direct style as a computation whose result is the argument handed to
    [done]; the three other endings are the remaining constructors of
    [Outcome].

    The collaborators the file requires but does not define ([Remote],
    [Archiver], the hooks and middleware functions of the options with the
    calls they make through the context, [utils.getReversePath], and what
    the [fs.unlink] of the runtime does without a callback) are gathered in
    the record [World]; every theorem quantifies over it. *)

From Stdlib Require Import String Ascii List ZArith Bool Lia.
Import ListNotations.

Local Open Scope string_scope.
Local Open Scope list_scope.

Set Implicit Arguments.

(** JavaScript's [+] on strings; [++] stays the append of lists. *)
Infix "+++" := String.append (right associativity, at level 60).

(** ** Strings and POSIX paths *)

Definition slash : ascii := "/"%char.

(** The segments of a path between its separators: [a/b] has the segments
    [a] and [b], the empty string has one empty segment. *)
Fixpoint segments (s : string) : list string :=
  match s with
  | EmptyString => [EmptyString]
  | String c rest =>
      if Ascii.eqb c slash then EmptyString :: segments rest
      else match segments rest with
           | [] => [String c EmptyString]
           | seg :: segs => String c seg :: segs
           end
  end.

Fixpoint join_with (sep : string) (parts : list string) : string :=
  match parts with
  | [] => ""
  | [p] => p
  | p :: rest => p +++ sep +++ join_with sep rest
  end.

(** Node's [normalizeString], on segments: the stack holds the segments kept
    so far, last one first. *)
Definition normalize_step (allowAboveRoot : bool) (stack : list string)
           (seg : string) : list string :=
  if (seg =? "") || (seg =? ".") then stack
  else if seg =? ".." then
    match stack with
    | top :: below =>
        if top =? ".." then (if allowAboveRoot then seg :: stack else stack)
        else below
    | [] => if allowAboveRoot then [seg] else []
    end
  else seg :: stack.

Definition normalizeString (allowAboveRoot : bool) (segs : list string) : string :=
  join_with "/" (rev (fold_left (normalize_step allowAboveRoot) segs [])).

Definition starts_with_slash (s : string) : bool :=
  match s with
  | String c _ => Ascii.eqb c slash
  | EmptyString => false
  end.

Fixpoint ends_with_slash (s : string) : bool :=
  match s with
  | EmptyString => false
  | String c EmptyString => Ascii.eqb c slash
  | String _ rest => ends_with_slash rest
  end.

(** [path.posix.normalize] *)
Definition path_posix_normalize (p : string) : string :=
  if p =? "" then "."
  else
    let isAbsolute := starts_with_slash p in
    let trailingSeparator := ends_with_slash p in
    let body := normalizeString (negb isAbsolute) (segments p) in
    if body =? "" then
      (if isAbsolute then "/" else if trailingSeparator then "./" else ".")
    else
      let body := if trailingSeparator then body +++ "/" else body in
      if isAbsolute then "/" +++ body else body.

(** [path.posix.join]: the non-empty arguments joined by a slash, then
    normalized; [.] when there is none. *)
Definition path_posix_join (args : list string) : string :=
  match filter (fun a => negb (a =? "")) args with
  | [] => "."
  | parts => path_posix_normalize (join_with "/" parts)
  end.

Arguments path_posix_join : simpl never.

(** ** The options and the release

    The fields of the options object the file reads.  [Options] and
    [Release] are classes of the repository defined in other files; the
    embedding takes their values as given. *)

(** A value of the [share] mapping: a bare symlink name, or a descriptor
    object with optional [symlink] and [mode] properties. *)
Inductive ShareConfig : Type :=
| ShareName (name : string)
| ShareDescriptor (symlink : option string) (mode : option string).

(** The value of the local [symlinkName]: a string, or the descriptor object
    itself when it has no [symlink] property (line 353). *)
Inductive SymlinkName : Type :=
| Named (name : string)
| Unnamed.

(** What [+] makes of a [symlinkName] in a string concatenation. *)
Definition symlink_text (n : SymlinkName) : string :=
  match n with
  | Named s => s
  | Unnamed => "[object Object]"
  end.

(** A value of the three [on...Execute] options: absent, a list of commands,
    or a function of the context (whose behaviour the world supplies). *)
Inductive Middleware : Type :=
| MiddlewareAbsent
| MiddlewareList (commands : list string)
| MiddlewareFunction.

Record Options : Type := mkOptions {
  host : string;
  deployPath : string;
  releasesFolder : string;
  sharedFolder : string;
  currentReleaseLink : string;
  synchronizedFolder : string;
  localPath : string;
  mode : string;
  archiveType : string;
  archiveName : string;
  exclude : list string;
  (** [None] is an absent mapping; the list holds the own properties of the
      object in the order of [Object.keys]. *)
  share : option (list (string * ShareConfig));
  create : option (list string);
  makeWritable : option (list string);
  makeExecutable : option (list string);
  releasesToKeep : Z;
  deleteLocalArchiveAfterDeployment : bool;
  onBeforeDeployExecute : Middleware;
  onBeforeLinkExecute : Middleware;
  onAfterDeployExecute : Middleware
}.

(** The assignment [this.options.releasesToKeep = k]. *)
Definition set_releasesToKeep (k : Z) (o : Options) : Options :=
  mkOptions (host o) (deployPath o) (releasesFolder o) (sharedFolder o)
            (currentReleaseLink o) (synchronizedFolder o) (localPath o)
            (mode o) (archiveType o) (archiveName o) (exclude o) (share o)
            (create o) (makeWritable o) (makeExecutable o) k
            (deleteLocalArchiveAfterDeployment o) (onBeforeDeployExecute o)
            (onBeforeLinkExecute o) (onAfterDeployExecute o).

Record Release : Type := mkRelease {
  tag : string;
  name : string;
  path : string
}.

(** ** What a run does: actions *)

Inductive LogLevel : Type :=
| Subhead | Line | Ok | Error | Fatal | SpinnerStart | SpinnerStop | Console.

(** The methods of [Remote] the file calls.  The flag of [Exec] and of
    [ExecMultiple] is the third argument [showLog], [false] where the caller
    leaves it out. *)
Inductive RemoteCall : Type :=
| Connect
| Close
| Exec (command : string) (showLog : bool)
| ExecMultiple (commands : list string) (showLog : bool)
| Upload (src target : string)
| Synchronize (src target synchronized : string)
| CreateSymboliclink (target link : string)
| Chmod (path mode : string)
| CreateFolder (path : string)
| RemoveOldFolders (folder : string) (keep : Z).

(** What a hook or a middleware function can do with the context it
    receives (lines 30-64): call one of the six wrappers of
    [context.remote] or the deprecated [execRemote], or write to the
    logger.  The context holds no other handle on the remote. *)
Inductive ContextCall : Type :=
| ContextExec (command : string) (showLog : bool)
| ContextExecMultiple (commands : list string) (showLog : bool)
| ContextUpload (src target : string)
| ContextCreateSymboliclink (target link : string)
| ContextChmod (path mode : string)
| ContextCreateFolder (path : string)
| ContextExecRemote (cmd : string) (showLog : bool)
| ContextLog (level : LogLevel) (text : list string).

Inductive HookName : Type := OnBeforeDeploy | OnBeforeLink | OnAfterDeploy.

Inductive Phase : Type := BeforeDeploy | BeforeLink | AfterDeploy.

Inductive Action : Type :=
| Log (level : LogLevel) (text : list string)
| Call (c : RemoteCall)
| Compress (archiveType archiveName localPath : string) (exclude : list string)
| Hook (h : HookName)
| Resolve (p : Phase)
| Unlink (file : string).

Definition remote_calls (acts : list Action) : list RemoteCall :=
  flat_map (fun a => match a with Call c => [c] | _ => [] end) acts.

Arguments remote_calls : simpl never.

(** The wrappers of lines 35-62: each passes its arguments to the method
    of [this.remote] of the same name; [execRemote] takes the flag before
    the callback and calls [exec]. *)
Definition context_action (c : ContextCall) : Action :=
  match c with
  | ContextExec command showLog => Call (Exec command showLog)
  | ContextExecMultiple commands showLog => Call (ExecMultiple commands showLog)
  | ContextUpload src target => Call (Upload src target)
  | ContextCreateSymboliclink target link => Call (CreateSymboliclink target link)
  | ContextChmod path mode => Call (Chmod path mode)
  | ContextCreateFolder path => Call (CreateFolder path)
  | ContextExecRemote cmd showLog => Call (Exec cmd showLog)
  | ContextLog level text => Log level text
  end.

(** ** How a callback-taking function ends *)

Inductive Outcome (A : Type) : Type :=
| Returned (a : A)      (* the callback was called with [a] *)
| Stalled               (* the callback is never called *)
| Exited                (* the process ended *)
| Threw (error : string).

Arguments Stalled {A}.
Arguments Exited {A}.
Arguments Threw {A} error.

(** ** The collaborators *)

(** What [Remote] reports through the handlers it was created with, before
    it answers a call: a failed command (the [onError] of line 184) or the
    end of the connection (the third callback of [connect], line 208). *)
Inductive Notification : Type :=
| CommandFailed (command error : string)
| ConnectionClosed.

Record Reply : Type := mkReply {
  notes : list Notification;
  (** The first argument of the callback, [None] when falsy or left out. *)
  answer : Outcome (option string)
}.

(** [connect] takes a success and an error callback. *)
Inductive ConnectAnswer : Type :=
| Connected
| ConnectFailed (error : option string)
| ConnectPending.

Inductive CompressAnswer : Type :=
| Compressed (fileSize : string)
| CompressFailed (error : string)
| CompressPending.

(** What [utils.getReversePath] makes of its argument: the helper is
    defined in [utils.js], which is not among the sources, so whether it
    returns, and what, is for the world to say. *)
Inductive ReversePath : Type :=
| UpwardPath (upwardPath : string)
| HelperThrew (error : string).

(** What [fs.unlink] does when it is called with a path and no callback,
    as in line 552: a Node before version 10 starts the removal and
    returns; from version 10 on the call throws a [TypeError] before it
    touches the file. *)
Inductive UnlinkAnswer : Type :=
| RemovalStarted
| CallbackMissing (error : string).

(** Every collaborator sees the actions of the run so far.  Hooks and
    middleware functions receive the context, which holds the options
    object itself, so they hand back the options as they leave them; the
    calls they make through the context before they finish are listed in
    [hook_calls] and [middleware_calls]. *)
Record World : Type := mkWorld {
  getReversePath : SymlinkName -> ReversePath;
  (** The comparison [s == 0] of a string with the number zero. *)
  string_equals_zero : string -> bool;
  connect_reply : list Action -> list Notification * ConnectAnswer;
  remote_reply : list Action -> RemoteCall -> Reply;
  compress_reply : list Action -> CompressAnswer;
  hook_reply : HookName -> list Action -> Options -> Options * Outcome (option string);
  middleware_reply : Phase -> list Action -> Options -> Options * Outcome (option (list string));
  hook_calls : HookName -> list Action -> Options -> list ContextCall;
  middleware_calls : Phase -> list Action -> Options -> list ContextCall;
  fs_unlink : string -> UnlinkAnswer
}.

(** ** The monad of the tasks: options as state, actions as output *)

Record Res (A : Type) : Type := mkRes {
  emitted : list Action;
  opts : Options;
  outcome : Outcome A
}.

(** A computation reads the actions that came before it and the options. *)
Definition M (A : Type) : Type := list Action -> Options -> Res A.

Definition ret {A} (a : A) : M A :=
  fun _ o => mkRes [] o (Returned a).

Definition bind {A B} (m : M A) (f : A -> M B) : M B :=
  fun h o =>
    match m h o with
    | mkRes e1 o1 (Returned a) =>
        match f a (h ++ e1) o1 with
        | mkRes e2 o2 out => mkRes (e1 ++ e2) o2 out
        end
    | mkRes e1 o1 Stalled => mkRes e1 o1 Stalled
    | mkRes e1 o1 Exited => mkRes e1 o1 Exited
    | mkRes e1 o1 (Threw e) => mkRes e1 o1 (Threw e)
    end.

Notation "x <- m ;; k" := (bind m (fun x => k))
  (at level 61, m at next level, right associativity).
Notation "m ;; k" := (bind m (fun _ => k))
  (at level 61, right associativity).

Definition emit (a : Action) : M unit :=
  fun _ o => mkRes [a] o (Returned tt).

Definition get_options : M Options :=
  fun _ o => mkRes [] o (Returned o).

Definition put_options (o : Options) : M unit :=
  fun _ _ => mkRes [] o (Returned tt).

Definition get_history : M (list Action) :=
  fun h o => mkRes [] o (Returned h).

Definition finish {A} (out : Outcome A) : M A :=
  fun _ o => mkRes [] o out.

Definition log (level : LogLevel) (text : list string) : M unit :=
  emit (Log level text).

(** Modelled from the spec: [logger.fatal] is defined in [logger.js], which
    is not among the sources.  Section 7 of the specification: fatal
    conditions terminate the process after logging. *)
Definition logger_fatal {A} (message : string) : M A :=
  log Fatal [message] ;; finish Exited.

(** [async.eachSeries]: the items one at a time; the first error ends the
    iteration and is handed to the final callback. *)
Fixpoint eachSeries {A} (items : list A) (iteratee : A -> M (option string))
  : M (option string) :=
  match items with
  | [] => ret None
  | item :: rest =>
      err <- iteratee item ;;
      match err with
      | Some e => ret (Some e)
      | None => eachSeries rest iteratee
      end
  end.

(** ** The tasks *)

Definition newline : string := String (ascii_of_nat 10) EmptyString.

(** The properties every object literal inherits from [Object.prototype],
    with the text [Array.prototype.join] makes of their values. *)
Definition inherited_functions : list string :=
  ["__defineGetter__"; "__defineSetter__"; "hasOwnProperty";
   "__lookupGetter__"; "__lookupSetter__"; "isPrototypeOf";
   "propertyIsEnumerable"; "toString"; "valueOf"; "toLocaleString"].

Definition object_prototype_text (key : string) : option string :=
  if key =? "constructor" then Some "function Object() { [native code] }"
  else if key =? "__proto__" then Some "[object Object]"
  else if existsb (String.eqb key) inherited_functions
       then Some ("function " +++ key +++ "() { [native code] }")
  else None.

(** The lookup [untarMap[archiveType]] of lines 298-309: the own properties
    [zip] and [tar], then the prototype chain; [None] is [undefined].  Every
    value found is truthy. *)
Definition untarMap (archivePath releasePath archiveType : string) : option string :=
  if archiveType =? "zip"
  then Some ("unzip -q " +++ archivePath +++ " -d " +++ releasePath +++ "/")
  else if archiveType =? "tar"
  then Some ("tar -xvf " +++ archivePath +++ " -C " +++ releasePath +++ "/")
  else object_prototype_text archiveType.

(** The local [symlinkName] and [mode] of lines 352-368. *)
Definition symlinkName_of (configValue : ShareConfig) : SymlinkName :=
  match configValue with
  | ShareName n => Named n
  | ShareDescriptor (Some s) _ => Named s
  | ShareDescriptor None _ => Unnamed
  end.

Definition mode_of (configValue : ShareConfig) : option string :=
  match configValue with
  | ShareName _ => None
  | ShareDescriptor _ m => m
  end.

(** [!mode] is false exactly for a non-empty string. *)
Definition truthy_mode (m : option string) : option string :=
  match m with
  | Some EmptyString => None
  | other => other
  end.

Fixpoint property (key : string) (entries : list (string * ShareConfig))
  : option ShareConfig :=
  match entries with
  | [] => None
  | (k, v) :: rest => if k =? key then Some v else property key rest
  end.

Section Pipeline.

Variable world : World.
Variable release : Release.

(** The handlers given to [Remote] in [connectToRemoteTask]. *)
Definition notify (n : Notification) : M unit :=
  match n with
  | CommandFailed command error =>
      log Console [command] ;;
      log Error ["Connection error"; command; error]
  | ConnectionClosed =>
      o <- get_options ;;
      log Subhead ["Closed from " +++ host o]
  end.

Fixpoint notify_all (ns : list Notification) : M unit :=
  match ns with
  | [] => ret tt
  | n :: rest => notify n ;; notify_all rest
  end.

(** A call of a method of [this.remote] other than [connect]; the result
    is the argument its callback receives. *)
Definition remote (c : RemoteCall) : M (option string) :=
  emit (Call c) ;;
  h <- get_history ;;
  let r := remote_reply world h c in
  notify_all (notes r) ;;
  finish (answer r).

(** The value of [share.length == 0] for a mapping: an object has a
    [length] only as a folder key of that name. *)
Definition length_equals_zero (entries : list (string * ShareConfig)) : bool :=
  match property "length" entries with
  | Some (ShareName s) => string_equals_zero world s
  | Some (ShareDescriptor _ _) => false
  | None => false
  end.

(** Line 370. *)
Definition linkPath_of (symlinkName : SymlinkName) : string :=
  path release +++ "/" +++ symlink_text symlinkName.

(** Line 371: the call of the helper; what it throws leaves the task. *)
Definition reversePath (symlinkName : SymlinkName) : M string :=
  match getReversePath world symlinkName with
  | UpwardPath upwardPath => ret upwardPath
  | HelperThrew error => finish (Threw error)
  end.

(** Line 372. *)
Definition sharedLinkTarget (o : Options) (upwardPath : string)
           (currentSharedFolder : string) : string :=
  upwardPath +++ "/../" +++ sharedFolder o +++ "/" +++ currentSharedFolder.

(** A call made through the context.  The answer of the remote goes to
    the callback of the caller, not to the file; the handlers given to
    [Remote] hear of it as of any other call. *)
Definition context_call (c : ContextCall) : M unit :=
  match context_action c with
  | Call rc =>
      emit (Call rc) ;;
      h <- get_history ;;
      notify_all (notes (remote_reply world h rc))
  | other => emit other
  end.

Fixpoint context_calls (cs : list ContextCall) : M unit :=
  match cs with
  | [] => ret tt
  | c :: rest => context_call c ;; context_calls rest
  end.

Definition run_hook (hk : HookName) : M (option string) :=
  emit (Hook hk) ;;
  h <- get_history ;;
  o <- get_options ;;
  context_calls (hook_calls world hk h o) ;;
  let (o', out) := hook_reply world hk h o in
  put_options o' ;;
  finish out.

Definition run_commands (commands : option (list string)) : M (option string) :=
  match commands with
  | None => ret None
  | Some [] => ret None
  | Some cmds =>
      eachSeries cmds (fun command =>
        log Subhead ["Execute on remote : " +++ command] ;;
        remote (Exec command true)) ;;
      log Ok ["Done"] ;;
      ret None
  end.

Definition middlewareCallbackExecute (p : Phase) (commandsFunction : Middleware)
  : M (option string) :=
  match commandsFunction with
  | MiddlewareAbsent => ret None
  | MiddlewareList commands => run_commands (Some commands)
  | MiddlewareFunction =>
      emit (Resolve p) ;;
      h <- get_history ;;
      o <- get_options ;;
      context_calls (middleware_calls world p h o) ;;
      let (o', out) := middleware_reply world p h o in
      put_options o' ;;
      commands <- finish out ;;
      run_commands commands
  end.

Definition onBeforeDeployTask : M (option string) := run_hook OnBeforeDeploy.

Definition onBeforeDeployExecuteTask : M (option string) :=
  o <- get_options ;;
  middlewareCallbackExecute BeforeDeploy (onBeforeDeployExecute o).

Definition compressReleaseTask : M (option string) :=
  o <- get_options ;;
  if negb (mode o =? "archive") then ret None
  else
    log Subhead ["Compress release"] ;;
    log SpinnerStart ["Compressing"] ;;
    emit (Compress (archiveType o) (archiveName o) (localPath o) (exclude o)) ;;
    h <- get_history ;;
    match compress_reply world h with
    | Compressed fileSize =>
        log SpinnerStop [] ;;
        log Ok ["Archive created : " +++ fileSize] ;;
        ret None
    | CompressFailed err =>
        log SpinnerStop [] ;;
        log Error ["Error while compressing"] ;;
        finish (Threw err)
    | CompressPending => finish Stalled
    end.

Definition connectToRemoteTask : M (option string) :=
  o <- get_options ;;
  log Subhead ["Connect to " +++ host o] ;;
  log SpinnerStart ["Connecting"] ;;
  emit (Call Connect) ;;
  h <- get_history ;;
  let (ns, a) := connect_reply world h in
  notify_all ns ;;
  match a with
  | Connected =>
      log SpinnerStop [] ;;
      log Ok ["Connected"] ;;
      ret None
  | ConnectFailed error =>
      log SpinnerStop [] ;;
      match error with
      | Some e => logger_fatal e
      | None => finish Stalled
      end
  | ConnectPending => finish Stalled
  end.

Definition createReleaseFolderOnRemoteTask : M (option string) :=
  log Subhead ["Create release folder on remote"] ;;
  log Line [" - " +++ path release] ;;
  remote (CreateFolder (path release)) ;;
  log Ok ["Done"] ;;
  ret None.

Definition uploadArchiveTask : M (option string) :=
  o <- get_options ;;
  if negb (mode o =? "archive") then ret None
  else
    log Subhead ["Upload archive to remote"] ;;
    log SpinnerStart ["Uploading"] ;;
    error <- remote (Upload (archiveName o) (path release)) ;;
    log SpinnerStop [] ;;
    match error with
    | Some e => log Error [e] ;; finish Stalled
    | None => log Ok ["Done"] ;; ret None
    end.

Definition uploadReleaseTask : M (option string) :=
  o <- get_options ;;
  if negb (mode o =? "synchronize") then ret None
  else
    log Subhead ["Synchronize remote server"] ;;
    log SpinnerStart ["Synchronizing"] ;;
    remote (Synchronize (localPath o) (path release)
                        (deployPath o +++ "/" +++ synchronizedFolder o)) ;;
    log SpinnerStop [] ;;
    log Ok ["Done"] ;;
    ret None.

Definition decompressArchiveOnRemoteTask : M (option string) :=
  o <- get_options ;;
  if negb (mode o =? "archive") then ret None
  else
    log Subhead ["Decompress archive on remote"] ;;
    log SpinnerStart ["Decompressing"] ;;
    let archivePath := path_posix_join [path release; archiveName o] in
    let found := untarMap archivePath (path release) (archiveType o) in
    match found with
    | None => logger_fatal (archiveType o +++ " not supported.")
    | Some _ => ret tt
    end ;;
    let command :=
      join_with newline [match found with Some text => text | None => "" end;
                         "rm " +++ archivePath] in
    remote (Exec command false) ;;
    log SpinnerStop [] ;;
    log Ok ["Done"] ;;
    ret None.

Definition onBeforeLinkTask : M (option string) := run_hook OnBeforeLink.

Definition onBeforeLinkExecuteTask : M (option string) :=
  o <- get_options ;;
  middlewareCallbackExecute BeforeLink (onBeforeLinkExecute o).

(** The iteratee of lines 351-386. *)
Definition shareItem (o : Options) (item : string * ShareConfig)
  : M (option string) :=
  let (currentSharedFolder, configValue) := item in
  let symlinkName := symlinkName_of configValue in
  let mode := mode_of configValue in
  let linkPath := linkPath_of symlinkName in
  upwardPath <- reversePath symlinkName ;;
  let target := sharedLinkTarget o upwardPath currentSharedFolder in
  log Line [" - " +++ symlink_text symlinkName +++ " ==> " +++ currentSharedFolder] ;;
  remote (CreateSymboliclink target linkPath) ;;
  match truthy_mode mode with
  | None => ret None
  | Some m =>
      log Line ["   chmod " +++ m] ;;
      remote (Chmod linkPath m) ;;
      ret None
  end.

Definition updateSharedSymbolicLinkOnRemoteTask : M (option string) :=
  o <- get_options ;;
  match share o with
  | None => ret None
  | Some entries =>
      if length_equals_zero entries then ret None
      else
        log Subhead ["Update shared symlink on remote"] ;;
        eachSeries entries (shareItem o) ;;
        log Ok ["Done"] ;;
        ret None
  end.

Definition createFolderTask : M (option string) :=
  o <- get_options ;;
  match create o with
  | None => ret None
  | Some [] => ret None
  | Some folders =>
      log Subhead ["Create folders on remote"] ;;
      eachSeries folders (fun currentFolderToCreate =>
        let path := path release +++ "/" +++ currentFolderToCreate in
        log Line [" - " +++ currentFolderToCreate] ;;
        remote (CreateFolder path)) ;;
      log Ok ["Done"] ;;
      ret None
  end.

Definition makeDirectoriesWritableTask : M (option string) :=
  o <- get_options ;;
  match makeWritable o with
  | None => ret None
  | Some [] => ret None
  | Some folders =>
      log Subhead ["Make folders writable on remote"] ;;
      eachSeries folders (fun currentFolderToMakeWritable =>
        let path := path release +++ "/" +++ currentFolderToMakeWritable in
        let mode := "ugo+w" in
        log Line [" - " +++ currentFolderToMakeWritable] ;;
        remote (Chmod path mode)) ;;
      log Ok ["Done"] ;;
      ret None
  end.

Definition makeFilesExecutableTask : M (option string) :=
  o <- get_options ;;
  match makeExecutable o with
  | None => ret None
  | Some [] => ret None
  | Some files =>
      log Subhead ["Make files executables on remote"] ;;
      eachSeries files (fun currentFileToMakeExecutable =>
        let path := path release +++ "/" +++ currentFileToMakeExecutable in
        let command := "chmod ugo+x " +++ path in
        log Line [" - " +++ currentFileToMakeExecutable] ;;
        remote (Exec command false)) ;;
      log Ok ["Done"] ;;
      ret None
  end.

Definition updateCurrentSymbolicLinkOnRemoteTask : M (option string) :=
  o <- get_options ;;
  log Subhead ["Update current release symlink on remote"] ;;
  let target := releasesFolder o +++ "/" +++ tag release in
  let currentPath := path_posix_join [deployPath o; currentReleaseLink o] in
  remote (CreateSymboliclink target currentPath) ;;
  log Ok ["Done"] ;;
  ret None.

Definition onAfterDeployTask : M (option string) := run_hook OnAfterDeploy.

Definition onAfterDeployExecuteTask : M (option string) :=
  o <- get_options ;;
  middlewareCallbackExecute AfterDeploy (onAfterDeployExecute o).

Definition remoteCleanupTask : M (option string) :=
  log Subhead ["Remove old builds on remote"] ;;
  log SpinnerStart ["Removing"] ;;
  o <- get_options ;;
  (if releasesToKeep o <? 1 then put_options (set_releasesToKeep 1 o)
   else ret tt)%Z ;;
  o <- get_options ;;
  let folder := path_posix_join [deployPath o; releasesFolder o] in
  remote (RemoveOldFolders folder (releasesToKeep o)) ;;
  log SpinnerStop [] ;;
  log Ok ["Done"] ;;
  ret None.

Definition deleteLocalArchiveTask : M (option string) :=
  o <- get_options ;;
  if negb (mode o =? "archive") || negb (deleteLocalArchiveAfterDeployment o)
  then ret None
  else
    log Subhead ["Delete local archive"] ;;
    match fs_unlink world (archiveName o) with
    | RemovalStarted => emit (Unlink (archiveName o))
    | CallbackMissing error => finish (Threw error)
    end ;;
    log Ok ["Done"] ;;
    ret None.

Definition closeConnectionTask : M (option string) := remote Close.

Definition removeReleaseTask : M (option string) :=
  o <- get_options ;;
  log Subhead ["Remove releases on remote"] ;;
  let command := "rm -rf " +++ deployPath o in
  remote (Exec command false) ;;
  log Ok ["Done"] ;;
  ret None.

End Pipeline.

(** ** [async.series] and the two entry points *)

(** The bound methods handed to [async.series]. *)
Inductive Task : Type :=
| ConnectToRemote
| OnBeforeDeployHook
| OnBeforeDeployExecute
| CompressRelease
| CreateReleaseFolderOnRemote
| UploadArchive
| UploadRelease
| DecompressArchiveOnRemote
| OnBeforeLinkHook
| OnBeforeLinkExecute
| UpdateSharedSymbolicLinkOnRemote
| CreateFolders
| MakeDirectoriesWritable
| MakeFilesExecutable
| UpdateCurrentSymbolicLinkOnRemote
| OnAfterDeployHook
| OnAfterDeployExecute
| RemoteCleanup
| DeleteLocalArchive
| CloseConnection
| RemoveRelease.

Definition run_task (world : World) (release : Release) (t : Task)
  : M (option string) :=
  match t with
  | ConnectToRemote => connectToRemoteTask world
  | OnBeforeDeployHook => onBeforeDeployTask world
  | OnBeforeDeployExecute => onBeforeDeployExecuteTask world
  | CompressRelease => compressReleaseTask world
  | CreateReleaseFolderOnRemote => createReleaseFolderOnRemoteTask world release
  | UploadArchive => uploadArchiveTask world release
  | UploadRelease => uploadReleaseTask world release
  | DecompressArchiveOnRemote => decompressArchiveOnRemoteTask world release
  | OnBeforeLinkHook => onBeforeLinkTask world
  | OnBeforeLinkExecute => onBeforeLinkExecuteTask world
  | UpdateSharedSymbolicLinkOnRemote =>
      updateSharedSymbolicLinkOnRemoteTask world release
  | CreateFolders => createFolderTask world release
  | MakeDirectoriesWritable => makeDirectoriesWritableTask world release
  | MakeFilesExecutable => makeFilesExecutableTask world release
  | UpdateCurrentSymbolicLinkOnRemote =>
      updateCurrentSymbolicLinkOnRemoteTask world release
  | OnAfterDeployHook => onAfterDeployTask world
  | OnAfterDeployExecute => onAfterDeployExecuteTask world
  | RemoteCleanup => remoteCleanupTask world
  | DeleteLocalArchive => deleteLocalArchiveTask world
  | CloseConnection => closeConnectionTask world
  | RemoveRelease => removeReleaseTask world
  end.

(** What an observer of a run sees: [async.series] calling a task, the
    actions of the task, the task calling its callback, and the caller's
    [done] being called with its arguments. *)
Inductive Event : Type :=
| Started (t : Task)
| Did (a : Action)
| Signalled (t : Task) (error : option string)
| Completed (arguments : list string).

Record Run (A : Type) : Type := mkRun {
  events : list Event;
  final_options : Options;
  result : Outcome A
}.

(** [async.series]: each task is called when the one before it has called
    its callback; an error ends the series.  The result is the argument of
    the final callback. *)
Fixpoint series (world : World) (release : Release) (tasks : list Task)
         (h : list Action) (o : Options) : Run (option string) :=
  match tasks with
  | [] => mkRun [] o (Returned None)
  | t :: rest =>
      match run_task world release t h o with
      | mkRes acts o1 (Returned None) =>
          match series world release rest (h ++ acts) o1 with
          | mkRun evs o2 res =>
              mkRun (Started t :: map Did acts ++ Signalled t None :: evs) o2 res
          end
      | mkRes acts o1 (Returned (Some e)) =>
          mkRun (Started t :: map Did acts ++ [Signalled t (Some e)]) o1
                (Returned (Some e))
      | mkRes acts o1 Stalled => mkRun (Started t :: map Did acts) o1 Stalled
      | mkRes acts o1 Exited => mkRun (Started t :: map Did acts) o1 Exited
      | mkRes acts o1 (Threw e) => mkRun (Started t :: map Did acts) o1 (Threw e)
      end
  end.

(** The value of the parameter [done]: left out, the method [noop], or a
    function of the caller. *)
Inductive Callback : Type :=
| Undefined
| Noop
| Caller.

(** [done || this.noop] *)
Definition or_noop (done : Callback) : Callback :=
  match done with
  | Undefined => Noop
  | given => given
  end.

(** A call [f(arguments)]. *)
Definition call (f : Callback) (arguments : list string)
  : list Event * Outcome unit :=
  match f with
  | Undefined => ([], Threw "TypeError: done is not a function")
  | Noop => ([], Returned tt)
  | Caller => ([Completed arguments], Returned tt)
  end.

(** The final callback [function () { done(); }] of both entry points. *)
Definition finally (done : Callback) (r : Run (option string)) : Run unit :=
  match r with
  | mkRun evs o (Returned _) =>
      let (more, out) := call done [] in
      mkRun (evs ++ more) o out
  | mkRun evs o Stalled => mkRun evs o Stalled
  | mkRun evs o Exited => mkRun evs o Exited
  | mkRun evs o (Threw e) => mkRun evs o (Threw e)
  end.

Arguments run_task : simpl never.

Definition deployTasks : list Task :=
  [ConnectToRemote; OnBeforeDeployHook; OnBeforeDeployExecute; CompressRelease;
   CreateReleaseFolderOnRemote; UploadArchive; UploadRelease;
   DecompressArchiveOnRemote; OnBeforeLinkHook; OnBeforeLinkExecute;
   UpdateSharedSymbolicLinkOnRemote; CreateFolders; MakeDirectoriesWritable;
   MakeFilesExecutable; UpdateCurrentSymbolicLinkOnRemote; OnAfterDeployHook;
   OnAfterDeployExecute; RemoteCleanup; DeleteLocalArchive; CloseConnection].

Definition removeTasks : list Task :=
  [ConnectToRemote; RemoveRelease; CloseConnection].

Definition deployRelease (world : World) (release : Release) (done : Callback)
           (h : list Action) (o : Options) : Run unit :=
  let done := or_noop done in
  finally done (series world release deployTasks h o).

Definition removeRelease (world : World) (release : Release) (done : Callback)
           (h : list Action) (o : Options) : Run unit :=
  let done := or_noop done in
  finally done (series world release removeTasks h o).

(** The tasks a run started, in the order of their start. *)
Definition started (evs : list Event) : list Task :=
  flat_map (fun e => match e with Started t => [t] | _ => [] end) evs.


(** The calls of the caller's [done], with their arguments. *)
Definition completions (evs : list Event) : list (list string) :=
  flat_map (fun e => match e with Completed args => [args] | _ => [] end) evs.

(** The last event of a series is a stage calling its callback: the
    series has reached its final callback. *)
Definition final_callback_reached (evs : list Event) : Prop :=
  exists before t e, evs = before ++ [Signalled t e].

(** The log lines the handlers of [connectToRemoteTask] write. *)
Definition notices (o : Options) (ns : list Notification) : list Action :=
  flat_map (fun n =>
              match n with
              | CommandFailed command error =>
                  [Log Console [command];
                   Log Error ["Connection error"; command; error]]
              | ConnectionClosed => [Log Subhead ["Closed from " +++ host o]]
              end) ns.

(** The actions of a call made through the context, after the actions
    [h] and under the options [o]: the call of the remote with what the
    handlers write on hearing of it, or the line written to the logger. *)
Definition performed_by (w : World) (o : Options) (h : list Action)
           (c : ContextCall) : list Action :=
  match context_action c with
  | Call rc => Call rc :: notices o (notes (remote_reply w (h ++ [Call rc]) rc))
  | other => [other]
  end.

Fixpoint performed (w : World) (o : Options) (h : list Action)
         (cs : list ContextCall) : list Action :=
  match cs with
  | [] => []
  | c :: rest =>
      performed_by w o h c ++ performed w o (h ++ performed_by w o h c) rest
  end.


(** The number of separators in a path. *)
Fixpoint separators (s : string) : nat :=
  match s with
  | EmptyString => 0
  | String c rest =>
      if Ascii.eqb c slash then S (separators rest) else separators rest
  end.

(** Modelled from the spec: [utils.getReversePath] is defined in
    [utils.js], which is not among the sources.  Section 4.1 of the
    specification counts, in the target of a shared symlink, one [..]
    segment per path-separator level of the symlink name, two for the
    nested name [app/logs]; one of them is the [..] that line 372 writes
    itself, so the helper climbs one level per separator of the name. *)
Definition utils_getReversePath (symlinkName : string) : string :=
  join_with "/" (repeat ".." (separators symlinkName)).

(** The remote calls expected for one entry of [share]: the symlink, then a
    [chmod] of the link when the entry gives a non-empty mode; none when
    the helper throws on the symlink name. *)
Definition expected_share_calls (w : World) (rel : Release) (o : Options)
           (item : string * ShareConfig) : list RemoteCall :=
  let (folder, configValue) := item in
  let symlinkName := symlinkName_of configValue in
  let link := path rel +++ "/" +++ symlink_text symlinkName in
  match getReversePath w symlinkName with
  | HelperThrew _ => []
  | UpwardPath upwardPath =>
      CreateSymboliclink
        (upwardPath +++ "/../" +++ sharedFolder o +++ "/" +++ folder) link
      :: match configValue with
         | ShareDescriptor _ (Some (String c m)) => [Chmod link (String c m)]
         | _ => []
         end
  end.

(** The entry gives the name of its symlink, as a bare string or as the
    [symlink] of a descriptor, and the helper returns an upward path for
    it. *)
Definition names_its_symlink (w : World) (item : string * ShareConfig) : Prop :=
  exists symlink upwardPath,
    symlinkName_of (snd item) = Named symlink
    /\ getReversePath w (Named symlink) = UpwardPath upwardPath.

(** Every remote call is answered, with or without an error. *)
Definition answers (w : World) : Prop :=
  forall h c, exists e, answer (remote_reply w h c) = Returned e.

(** A result with some actions put before its own. *)
Definition prepend {A} (acts : list Action) (r : Res A) : Res A :=
  mkRes (acts ++ emitted r) (opts r) (outcome r).

(** A computation that leaves the options as it found them. *)
Definition keeps_options {A} (m : M A) : Prop :=
  forall h o, opts (m h o) = o.

(** The hooks and middleware functions of a world do not write to the
    options object they receive in the context. *)
Definition user_code_keeps_options (w : World) : Prop :=
  (forall hk h o, fst (hook_reply w hk h o) = o)
  /\ (forall p h o, fst (middleware_reply w p h o) = o).

(** ** Sample collaborators and options *)

(** A world in which every collaborator obliges: the connection is made,
    every call is answered without an error, hooks call [done] at once
    without a call of their own and middleware functions return no
    command.  Its helper climbs one level per separator of a name and
    throws on a descriptor object; its Node is of version 10 or later, so
    [fs.unlink] insists on a callback. *)
Definition obliging : World :=
  mkWorld (fun symlinkName =>
             match symlinkName with
             | Named s => UpwardPath (utils_getReversePath s)
             | Unnamed => HelperThrew "TypeError: path.split is not a function"
             end)
          (fun s => (s =? "") || (s =? "0"))
          (fun _ => ([], Connected))
          (fun _ _ => mkReply [] (Returned None))
          (fun _ => Compressed "12 MB")
          (fun _ _ o => (o, Returned None))
          (fun _ _ o => (o, Returned (Some [])))
          (fun _ _ _ => [])
          (fun _ _ _ => [])
          (fun _ => CallbackMissing "TypeError: Callback must be a function").

(** The obliging world, but the upload reports an error. *)
Definition upload_failing : World :=
  mkWorld (getReversePath obliging)
          (string_equals_zero obliging)
          (connect_reply obliging)
          (fun _ c => match c with
                      | Upload _ _ => mkReply [] (Returned (Some "EPIPE"))
                      | _ => mkReply [] (Returned None)
                      end)
          (compress_reply obliging)
          (hook_reply obliging)
          (middleware_reply obliging)
          (hook_calls obliging)
          (middleware_calls obliging)
          (fs_unlink obliging).

(** The obliging world, but the before-link hook calls [done] with an
    error. *)
Definition hook_failing : World :=
  mkWorld (getReversePath obliging)
          (string_equals_zero obliging)
          (connect_reply obliging)
          (remote_reply obliging)
          (compress_reply obliging)
          (fun hk _ o => match hk with
                         | OnBeforeLink => (o, Returned (Some "hook failed"))
                         | _ => (o, Returned None)
                         end)
          (middleware_reply obliging)
          (hook_calls obliging)
          (middleware_calls obliging)
          (fs_unlink obliging).

Definition sample_release : Release :=
  mkRelease "2026-01-02-03-04-05" "release"
            "/var/www/releases/2026-01-02-03-04-05".

Definition archive_options : Options :=
  mkOptions "example.org" "/var/www" "releases" "shared" "www" "synchronized"
            "dist/" "archive" "tar" "release.tar.gz" []
            None None None None 3 true
            MiddlewareAbsent MiddlewareAbsent MiddlewareAbsent.

Definition with_mode (m : string) (o : Options) : Options :=
  mkOptions (host o) (deployPath o) (releasesFolder o) (sharedFolder o)
            (currentReleaseLink o) (synchronizedFolder o) (localPath o)
            m (archiveType o) (archiveName o) (exclude o) (share o)
            (create o) (makeWritable o) (makeExecutable o) (releasesToKeep o)
            (deleteLocalArchiveAfterDeployment o) (onBeforeDeployExecute o)
            (onBeforeLinkExecute o) (onAfterDeployExecute o).

Definition with_archiveType (t : string) (o : Options) : Options :=
  mkOptions (host o) (deployPath o) (releasesFolder o) (sharedFolder o)
            (currentReleaseLink o) (synchronizedFolder o) (localPath o)
            (mode o) t (archiveName o) (exclude o) (share o)
            (create o) (makeWritable o) (makeExecutable o) (releasesToKeep o)
            (deleteLocalArchiveAfterDeployment o) (onBeforeDeployExecute o)
            (onBeforeLinkExecute o) (onAfterDeployExecute o).

Definition with_share (s : option (list (string * ShareConfig))) (o : Options)
  : Options :=
  mkOptions (host o) (deployPath o) (releasesFolder o) (sharedFolder o)
            (currentReleaseLink o) (synchronizedFolder o) (localPath o)
            (mode o) (archiveType o) (archiveName o) (exclude o) s
            (create o) (makeWritable o) (makeExecutable o) (releasesToKeep o)
            (deleteLocalArchiveAfterDeployment o) (onBeforeDeployExecute o)
            (onBeforeLinkExecute o) (onAfterDeployExecute o).

Definition synchronize_options : Options := with_mode "synchronize" archive_options.

Definition keep_none_options : Options := set_releasesToKeep 0 archive_options.

Definition shared_options : Options :=
  with_share (Some [("logs", ShareName "logs");
                    ("upload", ShareDescriptor (Some "app/upload") (Some "777"));
                    ("cache", ShareDescriptor (Some "cache") (Some ""));
                    ("tmp", ShareDescriptor (Some "tmp") None)])
             archive_options.

Definition empty_mode_options : Options :=
  with_share (Some [("cache", ShareDescriptor (Some "cache") (Some ""))])
             archive_options.

(** ** Notions for whole runs *)

(** The actions of the tasks of a run, in their order. *)
Definition actions_of (evs : list Event) : list Action :=
  flat_map (fun e => match e with Did a => [a] | _ => [] end) evs.

(** The remote calls of a run, in their order. *)
Definition calls_of (evs : list Event) : list RemoteCall :=
  remote_calls (actions_of evs).

(** Every action of a computation passes the test [p]. *)
Definition emits_only {A} (p : Action -> bool) (m : M A) : Prop :=
  forall h o, forallb p (emitted (m h o)) = true.

(** A task that never hands an error to its callback. *)
Definition never_fails (m : M (option string)) : Prop :=
  forall h o e, outcome (m h o) <> Returned (Some e).

(** The tasks that hand their callback to code outside the file: the three
    hooks (lines 128, 325, 501) and the close of the connection (line 562). *)
Definition hands_over_callback (t : Task) : bool :=
  match t with
  | OnBeforeDeployHook | OnBeforeLinkHook | OnAfterDeployHook
  | CloseConnection => true
  | _ => false
  end.

(** The two calls that open and end the connection. *)
Definition lifecycle_call (c : RemoteCall) : bool :=
  match c with
  | Connect | Close => true
  | _ => false
  end.

(** Neither [connect] nor [close]. *)
Definition within_connection (a : Action) : bool :=
  match a with
  | Call c => negb (lifecycle_call c)
  | _ => true
  end.

(** Not an action of the archive transfer: no call of the archiver, no
    upload, no removal of the local archive. *)
Definition no_archive_action (a : Action) : bool :=
  match a with
  | Compress _ _ _ _ | Call (Upload _ _) | Unlink _ => false
  | _ => true
  end.

Definition no_synchronize_action (a : Action) : bool :=
  match a with
  | Call (Synchronize _ _ _) => false
  | _ => true
  end.

(** Every call that a hook or a middleware function of the world makes
    through the context passes the test [p]. *)
Definition user_calls_pass (p : Action -> bool) (w : World) : Prop :=
  (forall hk h o, forallb p (map context_action (hook_calls w hk h o)) = true)
  /\ (forall ph h o,
         forallb p (map context_action (middleware_calls w ph h o)) = true).

(** The iteratee shared by the list stages and the middleware commands: a
    log line, then one remote call whose callback is the iteratee's. *)
Definition call_per_item (w : World) {A} (level : LogLevel)
           (text : A -> list string) (mk : A -> RemoteCall)
  : A -> M (option string) :=
  fun item => log level (text item) ;; remote w (mk item).

(** The shape of the list stages once their guard has passed: a heading,
    the iteration, and a final callback that writes the closing line and
    calls [done()]. *)
Definition list_stage_body {A} (title : string) (items : list A)
           (it : A -> M (option string)) : M (option string) :=
  log Subhead [title] ;;
  eachSeries items it ;;
  log Ok ["Done"] ;;
  ret None.

(** What a task whose callback takes no argument makes of the answer to
    its remote call: any answer, with an error or without, is a success. *)
Definition whatever_the_answer (out : Outcome (option string))
  : Outcome (option string) :=
  match out with
  | Returned _ => Returned None
  | other => other
  end.

(** The hooks called by a list of actions, in their order. *)
Definition hooks_of (acts : list Action) : list HookName :=
  flat_map (fun a => match a with Hook hk => [hk] | _ => [] end) acts.

(** The hook a task calls. *)
Definition hook_of_task (t : Task) : list HookName :=
  match t with
  | OnBeforeDeployHook => [OnBeforeDeploy]
  | OnBeforeLinkHook => [OnBeforeLink]
  | OnAfterDeployHook => [OnAfterDeploy]
  | _ => []
  end.

Definition no_hook (a : Action) : bool :=
  match a with
  | Hook _ => false
  | _ => true
  end.

(** Every remote call is answered without an error. *)
Definition succeeds (w : World) : Prop :=
  forall h c, answer (remote_reply w h c) = Returned None.

(** A world in which every collaborator obliges: the connection is made,
    every call is answered without an error, the archiver succeeds, the
    hooks call [done()] and the middleware functions return. *)
Definition obliges (w : World) : Prop :=
  (forall h, snd (connect_reply w h) = Connected)
  /\ succeeds w
  /\ (forall h, exists fileSize, compress_reply w h = Compressed fileSize)
  /\ (forall hk h o, snd (hook_reply w hk h o) = Returned None)
  /\ (forall p h o, exists commands,
         snd (middleware_reply w p h o) = Returned commands).

(** In archive mode the archive type is one [untarMap] knows. *)
Definition can_unpack (rel : Release) (o : Options) : Prop :=
  mode o = "archive" ->
  untarMap (path_posix_join [path rel; archiveName o]) (path rel)
           (archiveType o)
  <> None.

(** When the stage is to delete the local archive, the runtime starts the
    removal without a callback. *)
Definition can_delete (w : World) (o : Options) : Prop :=
  mode o = "archive" ->
  deleteLocalArchiveAfterDeployment o = true ->
  fs_unlink w (archiveName o) = RemovalStarted.

(** The helper returns an upward path for the symlink name of every entry
    of the share mapping. *)
Definition can_link (w : World) (o : Options) : Prop :=
  forall entries folder configValue,
    share o = Some entries ->
    In (folder, configValue) entries ->
    exists upwardPath,
      getReversePath w (symlinkName_of configValue) = UpwardPath upwardPath.

(** A task that calls its callback without an error, from any state. *)
Definition completes (m : M (option string)) : Prop :=
  forall h o, outcome (m h o) = Returned None.

(** The obliging world, but the connection is refused. *)
Definition connect_refusing : World :=
  mkWorld (getReversePath obliging)
          (string_equals_zero obliging)
          (fun _ => ([], ConnectFailed (Some "ECONNREFUSED")))
          (remote_reply obliging)
          (compress_reply obliging)
          (hook_reply obliging)
          (middleware_reply obliging)
          (hook_calls obliging)
          (middleware_calls obliging)
          (fs_unlink obliging).

(** The obliging world, but every remote call reports an error. *)
Definition calls_failing : World :=
  mkWorld (getReversePath obliging)
          (string_equals_zero obliging)
          (connect_reply obliging)
          (fun _ _ => mkReply [] (Returned (Some "EACCES")))
          (compress_reply obliging)
          (hook_reply obliging)
          (middleware_reply obliging)
          (hook_calls obliging)
          (middleware_calls obliging)
          (fs_unlink obliging).

(** The obliging world, but every middleware function returns two
    commands. *)
Definition commanding : World :=
  mkWorld (getReversePath obliging)
          (string_equals_zero obliging)
          (connect_reply obliging)
          (remote_reply obliging)
          (compress_reply obliging)
          (hook_reply obliging)
          (fun _ _ o => (o, Returned (Some ["bin/migrate"; "bin/warm-cache"])))
          (hook_calls obliging)
          (middleware_calls obliging)
          (fs_unlink obliging).

(** The obliging world, but the remote never answers a call. *)
Definition silent : World :=
  mkWorld (getReversePath obliging)
          (string_equals_zero obliging)
          (connect_reply obliging)
          (fun _ _ => mkReply [] Stalled)
          (compress_reply obliging)
          (hook_reply obliging)
          (middleware_reply obliging)
          (hook_calls obliging)
          (middleware_calls obliging)
          (fs_unlink obliging).

(** The obliging world on a Node before version 10: [fs.unlink] starts the
    removal without a callback. *)
Definition legacy_node : World :=
  mkWorld (getReversePath obliging)
          (string_equals_zero obliging)
          (connect_reply obliging)
          (remote_reply obliging)
          (compress_reply obliging)
          (hook_reply obliging)
          (middleware_reply obliging)
          (hook_calls obliging)
          (middleware_calls obliging)
          (fun _ => RemovalStarted).

(** The obliging world, but the before-deploy hook uploads a file through
    the context and writes a line to the logger before it calls [done],
    and every middleware function runs a command through the deprecated
    [execRemote] before it returns. *)
Definition meddling : World :=
  mkWorld (getReversePath obliging)
          (string_equals_zero obliging)
          (connect_reply obliging)
          (remote_reply obliging)
          (compress_reply obliging)
          (hook_reply obliging)
          (middleware_reply obliging)
          (fun hk _ _ =>
             match hk with
             | OnBeforeDeploy =>
                 [ContextUpload "maintenance.html" "/var/www/maintenance.html";
                  ContextLog Line ["maintenance page uploaded"]]
             | _ => []
             end)
          (fun _ _ _ => [ContextExecRemote "uptime" false])
          (fs_unlink obliging).

(** A share mapping whose second entry is a descriptor without a
    [symlink]. *)
Definition unnamed_share_options : Options :=
  with_share (Some [("logs", ShareName "logs");
                    ("upload", ShareDescriptor None (Some "777"));
                    ("tmp", ShareName "tmp")])
             archive_options.

Definition with_lists (folders writable executable : option (list string))
           (o : Options) : Options :=
  mkOptions (host o) (deployPath o) (releasesFolder o) (sharedFolder o)
            (currentReleaseLink o) (synchronizedFolder o) (localPath o)
            (mode o) (archiveType o) (archiveName o) (exclude o) (share o)
            folders writable executable (releasesToKeep o)
            (deleteLocalArchiveAfterDeployment o) (onBeforeDeployExecute o)
            (onBeforeLinkExecute o) (onAfterDeployExecute o).

Definition lists_options : Options :=
  with_lists (Some ["var/cache"; "var/log"]) (Some ["var/cache"])
             (Some ["bin/console"; "bin/worker"]) archive_options.

(** ** Properties *)

(** *** Paths *)

Example join_plain :
  path_posix_join ["/var/www"; "releases"] = "/var/www/releases".
Proof. reflexivity. Qed.

Example join_normalizes :
  path_posix_join ["/var/www/"; "../srv//app/."; "releases/"]
  = "/var/srv/app/releases/".
Proof. reflexivity. Qed.

Example join_relative_above : path_posix_join ["a"; "../../b"] = "../b".
Proof. reflexivity. Qed.

Example join_nothing : path_posix_join [""; ""] = ".".
Proof. reflexivity. Qed.

(** *** The monad *)

Lemma bind_eq A B (m : M A) (f : A -> M B) h o :
  bind m f h o
  = match outcome (m h o) with
    | Returned a =>
        mkRes (emitted (m h o)
                 ++ emitted (f a (h ++ emitted (m h o)) (opts (m h o))))
              (opts (f a (h ++ emitted (m h o)) (opts (m h o))))
              (outcome (f a (h ++ emitted (m h o)) (opts (m h o))))
    | Stalled => mkRes (emitted (m h o)) (opts (m h o)) Stalled
    | Exited => mkRes (emitted (m h o)) (opts (m h o)) Exited
    | Threw e => mkRes (emitted (m h o)) (opts (m h o)) (Threw e)
    end.
Proof.
  unfold bind. destruct (m h o) as [e1 o1 [a| | |]]; simpl; try reflexivity.
  destruct (f a (h ++ e1) o1); reflexivity.
Qed.

Lemma bind_returned A B (m : M A) (f : A -> M B) h o a :
  outcome (m h o) = Returned a ->
  bind m f h o =
  mkRes (emitted (m h o) ++ emitted (f a (h ++ emitted (m h o)) (opts (m h o))))
        (opts (f a (h ++ emitted (m h o)) (opts (m h o))))
        (outcome (f a (h ++ emitted (m h o)) (opts (m h o)))).
Proof. intros H. rewrite bind_eq, H. reflexivity. Qed.

(** A task that begins by reading the options. *)
Lemma bind_get_options A (k : Options -> M A) h o :
  bind get_options k h o = k o h o.
Proof.
  unfold bind, get_options. rewrite app_nil_r.
  destruct (k o h o); reflexivity.
Qed.

Lemma notify_all_eq ns h o :
  notify_all ns h o = mkRes (notices o ns) o (Returned tt).
Proof.
  revert h. induction ns as [|n ns IH]; intros h; [reflexivity|].
  simpl notify_all. unfold bind.
  destruct n; simpl; rewrite IH; reflexivity.
Qed.

Lemma remote_eq w c h o :
  remote w c h o
  = mkRes (Call c :: notices o (notes (remote_reply w (h ++ [Call c]) c))) o
          (answer (remote_reply w (h ++ [Call c]) c)).
Proof.
  unfold remote, bind, emit, get_history, finish. simpl.
  rewrite notify_all_eq. simpl. rewrite app_nil_r.
  destruct (answer _); reflexivity.
Qed.

Lemma context_call_eq w c h o :
  context_call w c h o = mkRes (performed_by w o h c) o (Returned tt).
Proof.
  unfold context_call, performed_by.
  destruct (context_action c); try reflexivity.
  unfold bind, emit, get_history. simpl.
  rewrite notify_all_eq. reflexivity.
Qed.

Lemma context_calls_eq w cs h o :
  context_calls w cs h o = mkRes (performed w o h cs) o (Returned tt).
Proof.
  revert h. induction cs as [|c cs IH]; intros h; [reflexivity|].
  simpl context_calls. unfold bind. rewrite context_call_eq, IH.
  reflexivity.
Qed.

Lemma bind_ret A B (a : A) (k : A -> M B) h o :
  bind (ret a) k h o = k a h o.
Proof.
  unfold bind, ret. rewrite app_nil_r. destruct (k a h o); reflexivity.
Qed.

Lemma bind_put_options A o' (k : unit -> M A) h o :
  bind (put_options o') k h o = k tt h o'.
Proof.
  unfold bind, put_options. rewrite app_nil_r. destruct (k tt h o'); reflexivity.
Qed.

Lemma bind_get_history A (k : list Action -> M A) h o :
  bind get_history k h o = k h h o.
Proof.
  unfold bind, get_history. rewrite app_nil_r. destruct (k h h o); reflexivity.
Qed.

Lemma bind_emit A a (k : unit -> M A) h o :
  bind (emit a) k h o = prepend [a] (k tt (h ++ [a]) o).
Proof. unfold bind, emit. destruct (k tt (h ++ [a]) o); reflexivity. Qed.

Lemma bind_log A level text (k : unit -> M A) h o :
  bind (log level text) k h o
  = prepend [Log level text] (k tt (h ++ [Log level text]) o).
Proof. apply bind_emit. Qed.

Lemma bind_remote_answered A w c (k : option string -> M A) h o e :
  answer (remote_reply w (h ++ [Call c]) c) = Returned e ->
  bind (remote w c) k h o
  = prepend (Call c :: notices o (notes (remote_reply w (h ++ [Call c]) c)))
            (k e (h ++ Call c
                    :: notices o (notes (remote_reply w (h ++ [Call c]) c))) o).
Proof.
  intros He. unfold bind. rewrite remote_eq, He.
  destruct (k e _ o); reflexivity.
Qed.

Lemma bind_context_calls A w cs (k : unit -> M A) h o :
  bind (context_calls w cs) k h o
  = prepend (performed w o h cs) (k tt (h ++ performed w o h cs) o).
Proof.
  unfold bind. rewrite context_calls_eq.
  destruct (k tt _ o); reflexivity.
Qed.

(** A hook: its marker, the calls it makes through the context, and the
    options and the outcome it leaves. *)
Lemma run_hook_eq w hk h o :
  run_hook w hk h o
  = mkRes (Hook hk :: performed w o (h ++ [Hook hk])
                                (hook_calls w hk (h ++ [Hook hk]) o))
          (fst (hook_reply w hk (h ++ [Hook hk]) o))
          (snd (hook_reply w hk (h ++ [Hook hk]) o)).
Proof.
  unfold run_hook.
  rewrite bind_emit, bind_get_history, bind_get_options, bind_context_calls.
  destruct (hook_reply w hk (h ++ [Hook hk]) o) as [o' out].
  rewrite bind_put_options. unfold finish, prepend. simpl.
  now rewrite app_nil_r.
Qed.

(** A middleware function: its marker and the calls it makes through the
    context; the commands it returns are then run as a list is. *)
Lemma middleware_function_eq w p h o :
  middlewareCallbackExecute w p MiddlewareFunction h o
  = let h1 := h ++ [Resolve p] in
    let acts := Resolve p :: performed w o h1 (middleware_calls w p h1 o) in
    let o' := fst (middleware_reply w p h1 o) in
    match snd (middleware_reply w p h1 o) with
    | Returned commands => prepend acts (run_commands w commands (h ++ acts) o')
    | Stalled => mkRes acts o' Stalled
    | Exited => mkRes acts o' Exited
    | Threw e => mkRes acts o' (Threw e)
    end.
Proof.
  unfold middlewareCallbackExecute.
  rewrite bind_emit, bind_get_history, bind_get_options, bind_context_calls.
  destruct (middleware_reply w p (h ++ [Resolve p]) o) as [o' out].
  rewrite bind_put_options. cbn zeta. cbn [fst snd].
  destruct out as [commands| | |];
    try (unfold finish, bind, prepend; simpl; now rewrite ?app_nil_r).
  change (finish (Returned commands))
    with (ret (A := option (list string)) commands).
  rewrite bind_ret. unfold prepend. cbn [emitted opts outcome].
  rewrite <- app_assoc. reflexivity.
Qed.

Lemma remote_calls_app a b :
  remote_calls (a ++ b) = remote_calls a ++ remote_calls b.
Proof. unfold remote_calls. apply flat_map_app. Qed.

Lemma remote_calls_nil : remote_calls [] = [].
Proof. reflexivity. Qed.

Lemma remote_calls_call c acts :
  remote_calls (Call c :: acts) = c :: remote_calls acts.
Proof. reflexivity. Qed.

Lemma remote_calls_log level text acts :
  remote_calls (Log level text :: acts) = remote_calls acts.
Proof. reflexivity. Qed.

Lemma remote_calls_notices o ns : remote_calls (notices o ns) = [].
Proof.
  induction ns as [|n ns IH]; [reflexivity|].
  destruct n; simpl; exact IH.
Qed.

Lemma emitted_prepend A acts (r : Res A) :
  emitted (prepend acts r) = acts ++ emitted r.
Proof. reflexivity. Qed.

Lemma emitted_ret A (a : A) h o : emitted (ret a h o) = [].
Proof. reflexivity. Qed.

(** Reads the remote calls off a list of actions. *)
Ltac calls :=
  repeat first
    [ rewrite emitted_prepend | rewrite emitted_ret | rewrite remote_calls_app
    | rewrite remote_calls_call | rewrite remote_calls_log
    | rewrite remote_calls_notices | rewrite remote_calls_nil
    | rewrite app_nil_r | rewrite app_nil_l
    | progress cbn [emitted opts outcome] ].

(** *** The stages bound to the transfer mode *)

(** C3: with mode [synchronize] the compress, upload-archive and unpack
    stages do nothing at all - no remote call, no call of the archiver, no
    log line - and call [done]; with mode [archive] the same holds of the
    synchronize stage. *)
Theorem mode_skips_other_transfer (w : World) (rel : Release)
        (h : list Action) (o : Options) :
  (mode o = "synchronize" ->
   compressReleaseTask w h o = mkRes [] o (Returned None)
   /\ uploadArchiveTask w rel h o = mkRes [] o (Returned None)
   /\ decompressArchiveOnRemoteTask w rel h o = mkRes [] o (Returned None))
  /\ (mode o = "archive" ->
      uploadReleaseTask w rel h o = mkRes [] o (Returned None)).
Proof.
  split; intros Hmode.
  - unfold compressReleaseTask, uploadArchiveTask, decompressArchiveOnRemoteTask.
    rewrite !bind_get_options, Hmode. auto.
  - unfold uploadReleaseTask. rewrite bind_get_options, Hmode. reflexivity.
Qed.

Lemma mode_skips_other_transfer_witness :
  (compressReleaseTask obliging [] synchronize_options
   = mkRes [] synchronize_options (Returned None)
   /\ uploadArchiveTask obliging sample_release [] synchronize_options
      = mkRes [] synchronize_options (Returned None)
   /\ decompressArchiveOnRemoteTask obliging sample_release [] synchronize_options
      = mkRes [] synchronize_options (Returned None))
  /\ uploadReleaseTask obliging sample_release [] archive_options
     = mkRes [] archive_options (Returned None).
Proof.
  split.
  - apply (proj1 (mode_skips_other_transfer obliging sample_release []
                                             synchronize_options)).
    reflexivity.
  - apply (proj2 (mode_skips_other_transfer obliging sample_release []
                                             archive_options)).
    reflexivity.
Defined.

(** In the mode of a stage the stage does call its collaborator. *)
Example synchronize_runs_in_its_mode :
  remote_calls (emitted (uploadReleaseTask obliging sample_release []
                                           synchronize_options))
  = [Synchronize "dist/" "/var/www/releases/2026-01-02-03-04-05"
                 "/var/www/synchronized"].
Proof. reflexivity. Qed.

(** *** Retention cleanup *)

(** C6: a run of the retention-cleanup stage calls [removeOldFolders]
    exactly once, and makes no other remote call: on the join of
    [deployPath] and [releasesFolder], and with [releasesToKeep] raised to 1
    when it is below. *)
Theorem cleanup_prunes_once (w : World) (h : list Action) (o : Options) :
  remote_calls (emitted (remoteCleanupTask w h o))
  = [RemoveOldFolders (path_posix_join [deployPath o; releasesFolder o])
                      (Z.max (releasesToKeep o) 1)].
Proof.
  unfold remoteCleanupTask.
  rewrite !bind_log, bind_get_options.
  destruct (Z.ltb_spec (releasesToKeep o) 1) as [Hlt|Hge];
    [rewrite bind_put_options | rewrite bind_ret];
    rewrite bind_get_options, bind_eq, remote_eq;
    cbn [outcome emitted opts];
    match goal with
    | |- context [answer ?r] => destruct (answer r) as [[e|]| | |]
    end;
    cbn [emitted opts outcome log emit ret bind releasesToKeep
         set_releasesToKeep deployPath releasesFolder];
    calls; f_equal; f_equal; lia.
Qed.

Example cleanup_keeps_three :
  remote_calls (emitted (remoteCleanupTask obliging [] archive_options))
  = [RemoveOldFolders "/var/www/releases" 3].
Proof. reflexivity. Qed.

(** *** Unpacking the archive on the remote *)

Lemma append_assoc a b c : (a +++ b) +++ c = a +++ b +++ c.
Proof. induction a as [|x a IH]; simpl; [reflexivity | now rewrite IH]. Qed.

Lemma decompress_supported w rel h o text :
  mode o = "archive" ->
  untarMap (path_posix_join [path rel; archiveName o]) (path rel) (archiveType o)
  = Some text ->
  remote_calls (emitted (decompressArchiveOnRemoteTask w rel h o))
  = [Exec (text +++ newline +++ "rm "
                +++ path_posix_join [path rel; archiveName o]) false].
Proof.
  intros Hmode Hfound.
  unfold decompressArchiveOnRemoteTask, bind, log, emit, get_options, ret.
  simpl. rewrite Hmode. simpl. rewrite Hfound. simpl.
  rewrite remote_eq. simpl.
  match goal with
  | |- context [answer ?r] => destruct (answer r) as [[e|]| | |]
  end; simpl; calls; reflexivity.
Qed.

(** With archive type [zip] the one remote call of the stage unzips the
    uploaded archive into the release path and then deletes it. *)
Lemma decompress_zip w rel h o :
  mode o = "archive" -> archiveType o = "zip" ->
  remote_calls (emitted (decompressArchiveOnRemoteTask w rel h o))
  = [Exec ("unzip -q " +++ path_posix_join [path rel; archiveName o]
             +++ " -d " +++ path rel +++ "/" +++ newline
             +++ "rm " +++ path_posix_join [path rel; archiveName o]) false].
Proof.
  intros Hmode Htype.
  rewrite (decompress_supported w rel h o
             (text := "unzip -q " +++ path_posix_join [path rel; archiveName o]
                        +++ " -d " +++ path rel +++ "/")); trivial.
  - now rewrite !append_assoc.
  - unfold untarMap. now rewrite Htype.
Qed.

(** With archive type [tar] it extracts the archive into the release path
    and then deletes it. *)
Lemma decompress_tar w rel h o :
  mode o = "archive" -> archiveType o = "tar" ->
  remote_calls (emitted (decompressArchiveOnRemoteTask w rel h o))
  = [Exec ("tar -xvf " +++ path_posix_join [path rel; archiveName o]
             +++ " -C " +++ path rel +++ "/" +++ newline
             +++ "rm " +++ path_posix_join [path rel; archiveName o]) false].
Proof.
  intros Hmode Htype.
  rewrite (decompress_supported w rel h o
             (text := "tar -xvf " +++ path_posix_join [path rel; archiveName o]
                        +++ " -C " +++ path rel +++ "/")); trivial.
  - now rewrite !append_assoc.
  - unfold untarMap. now rewrite Htype.
Qed.

(** An archive type under which [untarMap] holds nothing, neither of its
    own nor inherited, ends the process before any remote call. *)
Lemma decompress_unknown w rel h o :
  mode o = "archive" ->
  untarMap (path_posix_join [path rel; archiveName o]) (path rel) (archiveType o)
  = None ->
  decompressArchiveOnRemoteTask w rel h o
  = mkRes [Log Subhead ["Decompress archive on remote"];
           Log SpinnerStart ["Decompressing"];
           Log Fatal [archiveType o +++ " not supported."]] o Exited.
Proof.
  intros Hmode Hnone.
  unfold decompressArchiveOnRemoteTask, bind, log, emit, get_options, ret.
  simpl. rewrite Hmode. simpl. rewrite Hnone. reflexivity.
Qed.

Example decompress_rar :
  decompressArchiveOnRemoteTask obliging sample_release []
                                (with_archiveType "rar" archive_options)
  = mkRes [Log Subhead ["Decompress archive on remote"];
           Log SpinnerStart ["Decompressing"];
           Log Fatal ["rar not supported."]]
          (with_archiveType "rar" archive_options) Exited.
Proof. reflexivity. Qed.

(** C4, the code at an archive type that names an inherited property: the
    lookup in [untarMap] finds the constructor of objects, the check for a
    supported type passes, and the text of that function is sent to the
    remote as the unpack command. *)
Theorem decompress_inherited_property (w : World) (rel : Release)
        (h : list Action) (o : Options) :
  mode o = "archive" -> archiveType o = "constructor" ->
  remote_calls (emitted (decompressArchiveOnRemoteTask w rel h o))
  = [Exec ("function Object() { [native code] }" +++ newline +++ "rm "
             +++ path_posix_join [path rel; archiveName o]) false].
Proof.
  intros Hmode Htype.
  apply decompress_supported; trivial.
  unfold untarMap. now rewrite Htype.
Qed.

Lemma decompress_inherited_property_witness :
  remote_calls
    (emitted (decompressArchiveOnRemoteTask
                obliging sample_release []
                (with_archiveType "constructor" archive_options)))
  = [Exec ("function Object() { [native code] }" +++ newline +++ "rm "
             +++ "/var/www/releases/2026-01-02-03-04-05/release.tar.gz") false].
Proof.
  apply (decompress_inherited_property
           obliging sample_release []
           (with_archiveType "constructor" archive_options));
    reflexivity.
Defined.

(** *** Stages that have nothing to do *)

(** An absent or empty [create], [makeWritable] or [makeExecutable] list:
    the stage does nothing and calls [done]. *)
Lemma createFolderTask_skips w rel h o :
  create o = None \/ create o = Some [] ->
  createFolderTask w rel h o = mkRes [] o (Returned None).
Proof.
  intros [H|H]; unfold createFolderTask, bind, get_options; simpl;
    rewrite H; reflexivity.
Qed.

Lemma makeDirectoriesWritableTask_skips w rel h o :
  makeWritable o = None \/ makeWritable o = Some [] ->
  makeDirectoriesWritableTask w rel h o = mkRes [] o (Returned None).
Proof.
  intros [H|H]; unfold makeDirectoriesWritableTask, bind, get_options; simpl;
    rewrite H; reflexivity.
Qed.

Lemma makeFilesExecutableTask_skips w rel h o :
  makeExecutable o = None \/ makeExecutable o = Some [] ->
  makeFilesExecutableTask w rel h o = mkRes [] o (Returned None).
Proof.
  intros [H|H]; unfold makeFilesExecutableTask, bind, get_options; simpl;
    rewrite H; reflexivity.
Qed.

(** An absent [share] mapping: likewise. *)
Lemma updateSharedSymbolicLink_skips_absent w rel h o :
  share o = None ->
  updateSharedSymbolicLinkOnRemoteTask w rel h o = mkRes [] o (Returned None).
Proof.
  intros H. unfold updateSharedSymbolicLinkOnRemoteTask, bind, get_options.
  simpl. rewrite H. reflexivity.
Qed.

(** A middleware option that is absent or an empty list: likewise. *)
Lemma middleware_skips_static w p commandsFunction h o :
  commandsFunction = MiddlewareAbsent \/ commandsFunction = MiddlewareList [] ->
  middlewareCallbackExecute w p commandsFunction h o
  = mkRes [] o (Returned None).
Proof. intros [H|H]; rewrite H; reflexivity. Qed.

(** A middleware function that returns nothing or an empty list: after the
    call of the function the stage makes no remote call and writes no log
    line, and calls its callback. *)
Lemma middleware_skips_function w p h o o' commands :
  middleware_reply w p (h ++ [Resolve p]) o = (o', Returned commands) ->
  commands = None \/ commands = Some [] ->
  middlewareCallbackExecute w p MiddlewareFunction h o
  = mkRes (Resolve p
             :: performed w o (h ++ [Resolve p])
                          (middleware_calls w p (h ++ [Resolve p]) o))
          o' (Returned None).
Proof.
  intros Hreply Hempty.
  unfold middlewareCallbackExecute.
  rewrite bind_emit, bind_get_history, bind_get_options, bind_context_calls.
  rewrite Hreply, bind_put_options.
  unfold finish, bind. rewrite !app_nil_r.
  destruct Hempty as [-> | ->]; unfold prepend; simpl; rewrite app_nil_r;
    reflexivity.
Qed.

(** C2, the code at a [share] mapping that is an empty object: the object
    has no [length], the guard of line 342 does not hold, and the stage
    writes its heading and its closing line around an empty iteration.  It
    makes no remote call. *)
Theorem updateSharedSymbolicLink_empty_object (w : World) (rel : Release)
        (h : list Action) (o : Options) :
  share o = Some [] ->
  updateSharedSymbolicLinkOnRemoteTask w rel h o
  = mkRes [Log Subhead ["Update shared symlink on remote"]; Log Ok ["Done"]]
          o (Returned None).
Proof.
  intros H. unfold updateSharedSymbolicLinkOnRemoteTask, bind, get_options.
  simpl. rewrite H. reflexivity.
Qed.

Lemma updateSharedSymbolicLink_empty_object_witness :
  updateSharedSymbolicLinkOnRemoteTask
    obliging sample_release [] (with_share (Some []) archive_options)
  = mkRes [Log Subhead ["Update shared symlink on remote"]; Log Ok ["Done"]]
          (with_share (Some []) archive_options) (Returned None).
Proof.
  apply (updateSharedSymbolicLink_empty_object
           obliging sample_release [] (with_share (Some []) archive_options)).
  reflexivity.
Defined.

(** *** Shared symlinks *)












(** The item when the helper throws: nothing is written and no call is
    made. *)
Lemma shareItem_threw w rel o folder configValue error h o0 :
  getReversePath w (symlinkName_of configValue) = HelperThrew error ->
  shareItem w rel o (folder, configValue) h o0 = mkRes [] o0 (Threw error).
Proof.
  intros Hhelper. unfold shareItem, reversePath. rewrite Hhelper. reflexivity.
Qed.



(** A helper that climbs one level per segment of the name instead gives
    one [..] more: the count above is that of the modelled helper. *)
Example sharedLinkTarget_per_segment :
  sharedLinkTarget archive_options ".." "x" = "../../shared/x"
  /\ sharedLinkTarget archive_options "../.." "x" = "../../../shared/x".
Proof. split; reflexivity. Qed.


Lemma shareItem_calls w rel o item h o0 :
  answers w ->
  names_its_symlink w item ->
  remote_calls (emitted (shareItem w rel o item h o0))
  = expected_share_calls w rel o item
  /\ opts (shareItem w rel o item h o0) = o0
  /\ outcome (shareItem w rel o item h o0) = Returned None.
Proof.
  intros Hans (symlink & upwardPath & Hname & Hhelper).
  destruct item as [folder configValue]. simpl in Hname.
  unfold shareItem, expected_share_calls, reversePath, sharedLinkTarget,
    linkPath_of.
  rewrite Hname, Hhelper, bind_ret, bind_log.
  match goal with
  | |- context [bind (remote w ?c) _ ?hh _] =>
      destruct (Hans (hh ++ [Call c]) c) as [e He];
      rewrite bind_remote_answered with (e := e) by exact He
  end.
  destruct configValue as [n | s [[|c m]|]]; cbn [mode_of truthy_mode];
    try (cbn [prepend emitted opts outcome ret]; calls; now auto).
  rewrite bind_log.
  match goal with
  | |- context [bind (remote w ?c) _ ?hh _] =>
      destruct (Hans (hh ++ [Call c]) c) as [e' He'];
      rewrite bind_remote_answered with (e := e') by exact He'
  end.
  cbn [prepend emitted opts outcome ret]. calls. auto.
Qed.

Lemma eachSeries_share_calls w rel o entries h o0 :
  answers w ->
  Forall (names_its_symlink w) entries ->
  remote_calls (emitted (eachSeries entries (shareItem w rel o) h o0))
  = flat_map (expected_share_calls w rel o) entries
  /\ opts (eachSeries entries (shareItem w rel o) h o0) = o0
  /\ outcome (eachSeries entries (shareItem w rel o) h o0) = Returned None.
Proof.
  intros Hans Hnamed. revert h.
  induction Hnamed as [|item rest Hitem Hrest IH]; intros h; [simpl; auto|].
  destruct (@shareItem_calls w rel o item h o0 Hans Hitem)
    as (Hcalls & Hopts & Hout).
  simpl eachSeries. rewrite (bind_returned _ _ _ _ Hout). simpl.
  rewrite Hopts, remote_calls_app, Hcalls.
  destruct (IH (h ++ emitted (shareItem w rel o item h o0)))
    as (Hcalls' & Hopts' & Hout').
  rewrite Hcalls', Hopts', Hout'. auto.
Qed.

(** C8, amended: when the remote answers its calls and every entry of the
    mapping names its symlink - as a bare name or as the [symlink] of its
    descriptor - with the helper returning an upward path for it, the
    remote calls of the shared-symlink stage are, entry by entry in the
    order of the mapping, the creation of the symlink followed by a
    [chmod] of that link exactly when the entry is a descriptor whose
    [mode] is a non-empty string.  An entry without a mode, or with an
    empty one, gets no [chmod] call. *)
Theorem share_chmod_follows_symlink (w : World) (rel : Release)
        (h : list Action) (o : Options)
        (entries : list (string * ShareConfig)) :
  answers w ->
  share o = Some entries ->
  length_equals_zero w entries = false ->
  Forall (names_its_symlink w) entries ->
  remote_calls (emitted (updateSharedSymbolicLinkOnRemoteTask w rel h o))
  = flat_map (expected_share_calls w rel o) entries
  /\ forall folder configValue,
       In (folder, configValue) entries ->
       exists symlink upwardPath,
         symlinkName_of configValue = Named symlink
         /\ expected_share_calls w rel o (folder, configValue)
            = CreateSymboliclink (sharedLinkTarget o upwardPath folder)
                                 (path rel +++ "/" +++ symlink)
              :: match truthy_mode (mode_of configValue) with
                 | Some m => [Chmod (path rel +++ "/" +++ symlink) m]
                 | None => []
                 end.
Proof.
  intros Hans Hshare Hlen Hnamed. split.
  - unfold updateSharedSymbolicLinkOnRemoteTask.
    rewrite bind_get_options, Hshare, Hlen, bind_log.
    destruct (@eachSeries_share_calls w rel o entries
                (h ++ [Log Subhead ["Update shared symlink on remote"]]) o
                Hans Hnamed)
      as (Hcalls & Hopts & Hout).
    rewrite bind_returned with (a := None) by exact Hout.
    rewrite bind_log. calls. now rewrite Hcalls.
  - intros folder configValue Hin.
    rewrite Forall_forall in Hnamed.
    destruct (Hnamed _ Hin) as (symlink & upwardPath & Hname & Hhelper).
    simpl in Hname. exists symlink, upwardPath. split; [exact Hname|].
    unfold expected_share_calls, sharedLinkTarget.
    rewrite Hname, Hhelper. cbn [symlink_text].
    destruct configValue as [n | s [[|c m]|]]; reflexivity.
Qed.

Lemma obliging_answers : answers obliging.
Proof. intros h c. now exists None. Qed.

Lemma obliging_names (symlink : string) (item : string * ShareConfig) :
  symlinkName_of (snd item) = Named symlink ->
  names_its_symlink obliging item.
Proof.
  intros Hname. exists symlink, (utils_getReversePath symlink).
  split; [exact Hname | reflexivity].
Qed.

Lemma share_chmod_follows_symlink_witness :
  remote_calls (emitted (updateSharedSymbolicLinkOnRemoteTask
                           obliging sample_release [] shared_options))
  = [CreateSymboliclink "/../shared/logs"
                        "/var/www/releases/2026-01-02-03-04-05/logs";
     CreateSymboliclink "../../shared/upload"
                        "/var/www/releases/2026-01-02-03-04-05/app/upload";
     Chmod "/var/www/releases/2026-01-02-03-04-05/app/upload" "777";
     CreateSymboliclink "/../shared/cache"
                        "/var/www/releases/2026-01-02-03-04-05/cache";
     CreateSymboliclink "/../shared/tmp"
                        "/var/www/releases/2026-01-02-03-04-05/tmp"].
Proof.
  refine (proj1 (@share_chmod_follows_symlink
           obliging sample_release [] shared_options
           [("logs", ShareName "logs");
            ("upload", ShareDescriptor (Some "app/upload") (Some "777"));
            ("cache", ShareDescriptor (Some "cache") (Some ""));
            ("tmp", ShareDescriptor (Some "tmp") None)]
           obliging_answers eq_refl eq_refl _)).
  repeat constructor;
    [ apply (@obliging_names "logs") | apply (@obliging_names "app/upload")
    | apply (@obliging_names "cache") | apply (@obliging_names "tmp") ];
    reflexivity.
Defined.

(** A descriptor without a [symlink] hands the descriptor object to the
    helper (lines 353 and 371); when the helper throws on it, the stage
    ends there: the entries before it have their symlinks, the entry and
    those after it have none, and the callback is not called. *)
Example unnamed_descriptor_throws :
  updateSharedSymbolicLinkOnRemoteTask obliging sample_release []
                                       unnamed_share_options
  = mkRes [Log Subhead ["Update shared symlink on remote"];
           Log Line [" - logs ==> logs"];
           Call (CreateSymboliclink
                   "/../shared/logs"
                   "/var/www/releases/2026-01-02-03-04-05/logs")]
          unnamed_share_options
          (Threw "TypeError: path.split is not a function").
Proof. reflexivity. Qed.

(** C8 as stated fails: a descriptor that gives the mode as an empty string
    gives it explicitly, and the stage makes no [chmod] call for it. *)
Lemma explicit_empty_mode_gets_no_chmod :
  ~ (forall w rel h o folder configValue,
        answers w ->
        share o = Some [(folder, configValue)] ->
        length_equals_zero w [(folder, configValue)] = false ->
        (mode_of configValue <> None <->
         exists link m,
           In (Chmod link m)
              (remote_calls
                 (emitted (updateSharedSymbolicLinkOnRemoteTask w rel h o))))).
Proof.
  intros Hclaim.
  destruct (Hclaim obliging sample_release [] empty_mode_options
                   "cache" (ShareDescriptor (Some "cache") (Some ""))
                   obliging_answers eq_refl eq_refl) as [Hchmod _].
  destruct Hchmod as (link & m & Hin); [discriminate|].
  simpl in Hin. destruct Hin as [Hin|[]]. discriminate.
Qed.

(** *** Who writes to the options *)

Lemma keeps_ret A (a : A) : keeps_options (ret a).
Proof. intros h o; reflexivity. Qed.

Lemma keeps_finish A (out : Outcome A) : keeps_options (finish out).
Proof. intros h o; reflexivity. Qed.

Lemma keeps_emit a : keeps_options (emit a).
Proof. intros h o; reflexivity. Qed.

Lemma keeps_log level text : keeps_options (log level text).
Proof. intros h o; reflexivity. Qed.

Lemma keeps_get_options : keeps_options get_options.
Proof. intros h o; reflexivity. Qed.

Lemma keeps_get_history : keeps_options get_history.
Proof. intros h o; reflexivity. Qed.

Lemma keeps_bind A B (m : M A) (f : A -> M B) :
  keeps_options m -> (forall a, keeps_options (f a)) -> keeps_options (bind m f).
Proof.
  intros Hm Hf h o. rewrite bind_eq.
  destruct (outcome (m h o)) eqn:E; simpl; rewrite ?Hf; apply Hm.
Qed.

Lemma keeps_logger_fatal A message : keeps_options (@logger_fatal A message).
Proof. apply keeps_bind; [apply keeps_log | intros; apply keeps_finish]. Qed.

Lemma keeps_remote w c : keeps_options (remote w c).
Proof. intros h o. now rewrite remote_eq. Qed.

Lemma keeps_notify_all ns : keeps_options (notify_all ns).
Proof. intros h o. now rewrite notify_all_eq. Qed.

Lemma keeps_reversePath w symlinkName :
  keeps_options (reversePath w symlinkName).
Proof. intros h o. unfold reversePath. now destruct (getReversePath _ _). Qed.

Lemma keeps_eachSeries A (items : list A) iteratee :
  (forall item, keeps_options (iteratee item)) ->
  keeps_options (eachSeries items iteratee).
Proof.
  intros Hit. induction items as [|item rest IH]; simpl.
  - apply keeps_ret.
  - apply keeps_bind; [apply Hit|].
    intros [e|]; [apply keeps_ret | exact IH].
Qed.

Create HintDb keeps.

#[local] Hint Resolve keeps_ret keeps_finish keeps_emit keeps_log
  keeps_get_options keeps_get_history keeps_logger_fatal keeps_remote
  keeps_notify_all keeps_reversePath : keeps.

(** Takes a task apart along its binds and branches. *)
Ltac keeps :=
  repeat first
    [ progress auto with keeps
    | apply keeps_bind; [ | intro ]
    | apply keeps_eachSeries; intro
    | match goal with
      | |- keeps_options (if ?b then _ else _) => destruct b
      | |- keeps_options (match ?x with _ => _ end) => destruct x
      | |- keeps_options (let (_, _) := ?x in _) => destruct x
      end ].

Lemma keeps_run_commands w commands : keeps_options (run_commands w commands).
Proof. unfold run_commands. keeps. Qed.

Lemma run_hook_options w hk h o :
  opts (run_hook w hk h o) = fst (hook_reply w hk (h ++ [Hook hk]) o).
Proof. now rewrite run_hook_eq. Qed.

Lemma middleware_options w p commandsFunction h o :
  user_code_keeps_options w ->
  opts (middlewareCallbackExecute w p commandsFunction h o) = o.
Proof.
  intros [_ Hmw]. destruct commandsFunction; unfold middlewareCallbackExecute.
  - reflexivity.
  - apply keeps_run_commands.
  - change (opts (middlewareCallbackExecute w p MiddlewareFunction h o) = o).
    rewrite middleware_function_eq. cbn zeta.
    rewrite (Hmw p (h ++ [Resolve p]) o).
    destruct (snd (middleware_reply w p (h ++ [Resolve p]) o))
      as [commands| | |]; try reflexivity.
    cbn [prepend opts]. apply keeps_run_commands.
Qed.

Lemma keeps_at A (m : M A) h o : keeps_options m -> opts (m h o) = o.
Proof. intros H. apply H. Qed.

Lemma task_options w rel t h o :
  user_code_keeps_options w ->
  opts (run_task w rel t h o)
  = match t with
    | RemoteCleanup =>
        if (releasesToKeep o <? 1)%Z then set_releasesToKeep 1 o else o
    | _ => o
    end.
Proof.
  intros Huser.
  destruct t; unfold run_task;
    try (unfold onBeforeDeployTask, onBeforeLinkTask, onAfterDeployTask;
         rewrite run_hook_options; now apply Huser);
    try (unfold onBeforeDeployExecuteTask, onBeforeLinkExecuteTask,
           onAfterDeployExecuteTask;
         rewrite bind_get_options; now apply middleware_options);
    try (apply keeps_at;
         unfold connectToRemoteTask, compressReleaseTask,
           createReleaseFolderOnRemoteTask, uploadArchiveTask,
           uploadReleaseTask, decompressArchiveOnRemoteTask,
           updateSharedSymbolicLinkOnRemoteTask, shareItem, createFolderTask,
           makeDirectoriesWritableTask, makeFilesExecutableTask,
           updateCurrentSymbolicLinkOnRemoteTask, deleteLocalArchiveTask,
           closeConnectionTask, removeReleaseTask;
         now keeps).
  unfold remoteCleanupTask. rewrite !bind_log, bind_get_options.
  destruct (releasesToKeep o <? 1)%Z;
    [rewrite bind_put_options | rewrite bind_ret];
    rewrite bind_get_options; cbn [prepend opts]; apply keeps_at; keeps.
Qed.

Lemma finally_options done r :
  final_options (finally done r) = final_options r.
Proof.
  destruct r as [evs o [x| | |]]; simpl; try reflexivity.
  destruct done; reflexivity.
Qed.

(** [async.series] on a non-empty list, by the result of the first task. *)
Lemma series_cons w rel t rest h o :
  series w rel (t :: rest) h o
  = match outcome (run_task w rel t h o) with
    | Returned None =>
        mkRun (Started t :: map Did (emitted (run_task w rel t h o))
                 ++ Signalled t None
                 :: events (series w rel rest
                                   (h ++ emitted (run_task w rel t h o))
                                   (opts (run_task w rel t h o))))
              (final_options (series w rel rest
                                     (h ++ emitted (run_task w rel t h o))
                                     (opts (run_task w rel t h o))))
              (result (series w rel rest
                              (h ++ emitted (run_task w rel t h o))
                              (opts (run_task w rel t h o))))
    | Returned (Some e) =>
        mkRun (Started t :: map Did (emitted (run_task w rel t h o))
                 ++ [Signalled t (Some e)])
              (opts (run_task w rel t h o)) (Returned (Some e))
    | Stalled =>
        mkRun (Started t :: map Did (emitted (run_task w rel t h o)))
              (opts (run_task w rel t h o)) Stalled
    | Exited =>
        mkRun (Started t :: map Did (emitted (run_task w rel t h o)))
              (opts (run_task w rel t h o)) Exited
    | Threw e =>
        mkRun (Started t :: map Did (emitted (run_task w rel t h o)))
              (opts (run_task w rel t h o)) (Threw e)
    end.
Proof.
  simpl. destruct (run_task w rel t h o) as [acts o1 [[e|]| | |]]; simpl;
    try reflexivity.
  destruct (series w rel rest (h ++ acts) o1); reflexivity.
Qed.

Lemma series_options_without_cleanup w rel tasks h o :
  user_code_keeps_options w ->
  ~ In RemoteCleanup tasks ->
  final_options (series w rel tasks h o) = o.
Proof.
  intros Huser. revert h o.
  induction tasks as [|t rest IH]; intros h o Hnot; [reflexivity|].
  assert (Ht : opts (run_task w rel t h o) = o).
  { rewrite task_options by exact Huser.
    destruct t; trivial. elim Hnot. now left. }
  rewrite series_cons. destruct (outcome (run_task w rel t h o)) as [[e|]| | |];
    simpl; trivial.
  rewrite IH; [exact Ht | intros Hin; apply Hnot; now right].
Qed.

Lemma series_options w rel tasks h o :
  user_code_keeps_options w ->
  final_options (series w rel tasks h o) = o
  \/ ((releasesToKeep o < 1)%Z
      /\ final_options (series w rel tasks h o) = set_releasesToKeep 1 o).
Proof.
  intros Huser. revert h o.
  induction tasks as [|t rest IH]; intros h o; [now left|].
  pose proof (task_options rel t h o Huser) as Ht.
  assert (Hstep : opts (run_task w rel t h o) = o
                  \/ ((releasesToKeep o < 1)%Z
                      /\ opts (run_task w rel t h o) = set_releasesToKeep 1 o)).
  { destruct t; auto.
    destruct (Z.ltb_spec (releasesToKeep o) 1); auto. }
  clear Ht. rewrite series_cons.
  destruct (outcome (run_task w rel t h o)) as [[e|]| | |]; simpl; trivial.
  destruct (IH (h ++ emitted (run_task w rel t h o))
               (opts (run_task w rel t h o))) as [Heq | [Hlt Heq]];
    rewrite Heq.
  - exact Hstep.
  - destruct Hstep as [Hsame | [Hlt' Hset]].
    + rewrite Hsame in *. now right.
    + rewrite Hset in Hlt. simpl in Hlt. lia.
Qed.

(** C5, amended: provided the hooks and middleware functions do not write
    to the options, every stage of [deployRelease] and [removeRelease]
    leaves every field of the options as it found it, with one exception:
    retention cleanup sets [releasesToKeep] to 1 when it is below 1.  So
    [removeRelease] ends with the options it began with, and
    [deployRelease] does when [releasesToKeep] is at least 1. *)
Theorem stages_write_only_releasesToKeep (w : World) (rel : Release) :
  user_code_keeps_options w ->
  (forall t h o,
      opts (run_task w rel t h o)
      = match t with
        | RemoteCleanup =>
            if (releasesToKeep o <? 1)%Z then set_releasesToKeep 1 o else o
        | _ => o
        end)
  /\ (forall done h o, final_options (removeRelease w rel done h o) = o)
  /\ (forall done h o,
         final_options (deployRelease w rel done h o) = o
         \/ ((releasesToKeep o < 1)%Z
             /\ final_options (deployRelease w rel done h o)
                = set_releasesToKeep 1 o)).
Proof.
  intros Huser. repeat split.
  - intros t h o. now apply task_options.
  - intros done h o. unfold removeRelease. rewrite finally_options.
    apply series_options_without_cleanup; trivial.
    unfold removeTasks. simpl. intuition discriminate.
  - intros done h o. unfold deployRelease. rewrite finally_options.
    now apply series_options.
Qed.

Lemma stages_write_only_releasesToKeep_witness :
  opts (run_task obliging sample_release RemoteCleanup [] keep_none_options)
  = set_releasesToKeep 1 keep_none_options
  /\ opts (run_task obliging sample_release UploadArchive [] keep_none_options)
     = keep_none_options
  /\ final_options (removeRelease obliging sample_release Caller []
                                  keep_none_options)
     = keep_none_options.
Proof.
  pose (Hkeeps := conj (fun hk h o => eq_refl) (fun p h o => eq_refl)
                  : user_code_keeps_options obliging).
  destruct (stages_write_only_releasesToKeep sample_release Hkeeps)
    as (Htask & Hremove & _).
  split; [|split].
  - exact (Htask RemoteCleanup [] keep_none_options).
  - exact (Htask UploadArchive [] keep_none_options).
  - exact (Hremove Caller [] keep_none_options).
Defined.

(** C5 as stated fails: with [releasesToKeep] at 0 the retention cleanup
    stage assigns 1 to that field of the options. *)
Lemma cleanup_writes_releasesToKeep :
  releasesToKeep keep_none_options = 0%Z
  /\ releasesToKeep (opts (remoteCleanupTask obliging [] keep_none_options))
     = 1%Z
  /\ releasesToKeep
       (final_options (deployRelease obliging sample_release Caller []
                                     keep_none_options))
     = 1%Z.
Proof. repeat split. Qed.

(** *** The order of the stages *)

Lemma started_app a b : started (a ++ b) = started a ++ started b.
Proof. unfold started. apply flat_map_app. Qed.

Lemma started_actions acts : started (map Did acts) = [].
Proof. induction acts as [|a acts IH]; [reflexivity | exact IH]. Qed.


Lemma series_started_all w rel tasks h o :
  result (series w rel tasks h o) = Returned None ->
  started (events (series w rel tasks h o)) = tasks.
Proof.
  revert h o. induction tasks as [|t rest IH]; intros h o; [reflexivity|].
  rewrite series_cons.
  destruct (outcome (run_task w rel t h o)) as [[e|]| | |]; simpl;
    try discriminate.
  intros Hres. rewrite started_app, started_actions. simpl.
  now rewrite IH.
Qed.






Lemma finally_events done r :
  exists tail,
    events (finally done r) = events r ++ tail
    /\ (tail = [] \/ tail = [Completed []]).
Proof.
  destruct r as [evs o [x| | |]]; simpl;
    try (exists []; rewrite app_nil_r; now auto).
  destruct done; simpl; [exists [] | exists [] | exists [Completed []]];
    rewrite ?app_nil_r; auto.
Qed.




(** *** Completion *)

Lemma completions_app a b :
  completions (a ++ b) = completions a ++ completions b.
Proof. unfold completions. apply flat_map_app. Qed.

Lemma completions_actions acts : completions (map Did acts) = [].
Proof. induction acts as [|a acts IH]; [reflexivity | exact IH]. Qed.

(** [async.series] itself never calls the caller's [done]. *)
Lemma series_completions w rel tasks h o :
  completions (events (series w rel tasks h o)) = [].
Proof.
  revert h o. induction tasks as [|t rest IH]; intros h o; [reflexivity|].
  rewrite series_cons.
  destruct (outcome (run_task w rel t h o)) as [[e|]| | |];
    cbn [events]; change (Started t :: ?l) with ([Started t] ++ l);
    rewrite ?completions_app, ?completions_actions; try reflexivity.
  change (Signalled t None :: ?l) with ([Signalled t None] ++ l).
  rewrite completions_app, IH. reflexivity.
Qed.

Lemma finally_completions r :
  completions (events (finally Caller r))
  = completions (events r)
      ++ match result r with Returned _ => [[]] | _ => [] end.
Proof.
  destruct r as [evs o [x| | |]]; simpl; rewrite ?app_nil_r; trivial.
  now rewrite completions_app.
Qed.

Lemma series_events_not_nil w rel t rest h o :
  events (series w rel (t :: rest) h o) <> [].
Proof.
  rewrite series_cons.
  destruct (outcome (run_task w rel t h o)) as [[e|]| | |]; discriminate.
Qed.

Lemma final_callback_reached_app l1 l2 :
  l2 <> [] ->
  final_callback_reached (l1 ++ l2) <-> final_callback_reached l2.
Proof.
  intros Hl2. split.
  - intros (before & t & e & Heq).
    destruct (exists_last Hl2) as (front & x & ->).
    rewrite app_assoc in Heq. apply app_inj_tail in Heq.
    destruct Heq as [_ ->]. now exists front, t, e.
  - intros (before & t & e & ->).
    exists (l1 ++ before), t, e. now rewrite app_assoc.
Qed.

(** A stage that has not called its callback is not the end of a series
    that reached its final callback. *)
Lemma unfinished_stage_not_final t acts :
  ~ final_callback_reached (Started t :: map Did acts).
Proof.
  intros (before & t' & e & Heq).
  assert (Hin : In (Signalled t' e) (Started t :: map Did acts)).
  { rewrite Heq. apply in_or_app. right. now left. }
  destruct Hin as [Hin|Hin]; [discriminate|].
  apply in_map_iff in Hin. destruct Hin as (a & Ha & _). discriminate.
Qed.

(** [async.series] calls its final callback exactly when the last stage it
    started has called its own. *)
Lemma series_final_callback w rel tasks h o :
  tasks <> [] ->
  (exists e, result (series w rel tasks h o) = Returned e)
  <-> final_callback_reached (events (series w rel tasks h o)).
Proof.
  revert h o. induction tasks as [|t rest IH]; intros h o Htasks;
    [now elim Htasks|].
  rewrite series_cons.
  destruct (outcome (run_task w rel t h o)) as [[e|]| | |];
    cbn [events result].
  - split; [intros _ | now eauto].
    now exists (Started t :: map Did (emitted (run_task w rel t h o))), t,
               (Some e).
  - destruct rest as [|t' rest'].
    + simpl. split; [intros _ | now eauto].
      now exists (Started t :: map Did (emitted (run_task w rel t h o))), t,
                 None.
    + match goal with
      | |- _ <-> final_callback_reached (Started t :: ?l ++ ?s :: ?evs) =>
          replace (Started t :: l ++ s :: evs)
            with ((Started t :: l ++ [s]) ++ evs)
            by (simpl; now rewrite <- app_assoc)
      end.
      rewrite final_callback_reached_app by apply series_events_not_nil.
      apply IH. discriminate.
  - split; [intros [e He]; discriminate|].
    intros H. now apply unfinished_stage_not_final in H.
  - split; [intros [e He]; discriminate|].
    intros H. now apply unfinished_stage_not_final in H.
  - split; [intros [e' He]; discriminate|].
    intros H. now apply unfinished_stage_not_final in H.
Qed.

Lemma entry_point_completions w rel tasks h o :
  tasks <> [] ->
  (completions (events (finally Caller (series w rel tasks h o))) = [[]]
   \/ completions (events (finally Caller (series w rel tasks h o))) = [])
  /\ (completions (events (finally Caller (series w rel tasks h o))) = [[]]
      <-> final_callback_reached (events (series w rel tasks h o)))
  /\ (completions (events (finally Caller (series w rel tasks h o))) = [[]]
      -> exists before t e,
           events (finally Caller (series w rel tasks h o))
           = before ++ [Signalled t e; Completed []]).
Proof.
  intros Htasks.
  pose proof (series_final_callback w rel h o Htasks) as Hfinal.
  rewrite finally_completions, series_completions.
  destruct (series w rel tasks h o) as [evs o' res].
  cbn [events result finally] in *.
  destruct res as [x| | |]; cbn [app call fst snd events].
  - split; [now left|]. split.
    + split; [intros _; apply Hfinal; now eauto | reflexivity].
    + intros _. destruct Hfinal as [Hfinal _].
      destruct Hfinal as (before & t & e & ->); [now eauto|].
      exists before, t, e. now rewrite <- app_assoc.
  - split; [now right|]. split; [|discriminate].
    split; [discriminate|]. intros H. apply Hfinal in H. now destruct H.
  - split; [now right|]. split; [|discriminate].
    split; [discriminate|]. intros H. apply Hfinal in H. now destruct H.
  - split; [now right|]. split; [|discriminate].
    split; [discriminate|]. intros H. apply Hfinal in H. now destruct H.
Qed.

(** C7, amended: in every run of [deployRelease] and of [removeRelease]
    the caller's [done] is called at most once and never with an argument,
    so no error reaches the caller.  It is called exactly when the series
    of stages reaches its final callback, that is when the last stage that
    started has called its callback, with an error or without; the call of
    [done] then follows that of the stage at once.  A stage that ends
    without calling its callback leaves [done] uncalled. *)
Theorem done_called_when_series_ends (w : World) (rel : Release)
        (h : list Action) (o : Options) :
  ((completions (events (deployRelease w rel Caller h o)) = [[]]
    \/ completions (events (deployRelease w rel Caller h o)) = [])
   /\ (completions (events (deployRelease w rel Caller h o)) = [[]]
       <-> final_callback_reached (events (series w rel deployTasks h o)))
   /\ (completions (events (deployRelease w rel Caller h o)) = [[]]
       -> exists before t e,
            events (deployRelease w rel Caller h o)
            = before ++ [Signalled t e; Completed []]))
  /\ ((completions (events (removeRelease w rel Caller h o)) = [[]]
       \/ completions (events (removeRelease w rel Caller h o)) = [])
      /\ (completions (events (removeRelease w rel Caller h o)) = [[]]
          <-> final_callback_reached (events (series w rel removeTasks h o)))
      /\ (completions (events (removeRelease w rel Caller h o)) = [[]]
          -> exists before t e,
               events (removeRelease w rel Caller h o)
               = before ++ [Signalled t e; Completed []])).
Proof.
  unfold deployRelease, removeRelease, or_noop.
  split; apply entry_point_completions; discriminate.
Qed.

(** A stage that fails by calling its callback with an error: the series
    ends there, [done] is called, and the error is dropped. *)
Example hook_error_reaches_done_without_it :
  result (series hook_failing sample_release deployTasks [] archive_options)
  = Returned (Some "hook failed")
  /\ completions (events (deployRelease hook_failing sample_release Caller []
                                        archive_options))
     = [[]]
  /\ completions (events (removeRelease obliging sample_release Caller []
                                        archive_options))
     = [[]].
Proof. vm_compute. auto. Qed.

(** A stage that fails without calling its callback: when the upload
    reports an error the task logs it and returns, the series never
    reaches its final callback and [done] is not called. *)
Example upload_error_stalls :
  result (deployRelease upload_failing sample_release Caller []
                        archive_options)
  = Stalled
  /\ completions (events (deployRelease upload_failing sample_release Caller
                                        [] archive_options))
     = []
  /\ last (events (deployRelease upload_failing sample_release Caller []
                                 archive_options)) (Completed [])
     = Did (Log Error ["EPIPE"]).
Proof. vm_compute. auto. Qed.

Lemma done_called_when_series_ends_witness :
  (exists before t e,
      events (deployRelease hook_failing sample_release Caller []
                            archive_options)
      = before ++ [Signalled t e; Completed []])
  /\ completions (events (deployRelease upload_failing sample_release Caller
                                        [] archive_options))
     = [].
Proof.
  destruct (done_called_when_series_ends hook_failing sample_release []
                                         archive_options)
    as [(_ & _ & Hlast) _].
  destruct (done_called_when_series_ends upload_failing sample_release []
                                         archive_options)
    as [(Honce & Hiff & _) _].
  split.
  - apply Hlast. vm_compute. reflexivity.
  - destruct Honce as [Hcalled|Hnot]; [exfalso | exact Hnot].
    apply Hiff in Hcalled. destruct Hcalled as (before & t & e & Heq).
    apply (f_equal (fun evs => last evs (Completed []))) in Heq.
    rewrite last_last in Heq. vm_compute in Heq. discriminate.
Defined.

(** C7 as stated fails: [done] is not called in every run, and not when
    the upload of the archive fails (lines 244-250). *)
Lemma failed_upload_leaves_done_uncalled :
  ~ (forall w rel h o,
        completions (events (deployRelease w rel Caller h o)) = [[]]).
Proof.
  intros Hclaim.
  specialize (Hclaim upload_failing sample_release [] archive_options).
  vm_compute in Hclaim. discriminate.
Qed.

(** C10: with [done] left out both entry points put [noop] in its place;
    the run is the run of the series of stages, nothing is added to its
    events, and it ends as it ends with a callback of the caller. *)
Theorem omitted_done_is_noop (w : World) (rel : Release)
        (h : list Action) (o : Options) :
  (deployRelease w rel Undefined h o = deployRelease w rel Noop h o
   /\ events (deployRelease w rel Undefined h o)
      = events (series w rel deployTasks h o)
   /\ result (deployRelease w rel Undefined h o)
      = result (deployRelease w rel Caller h o))
  /\ (removeRelease w rel Undefined h o = removeRelease w rel Noop h o
      /\ events (removeRelease w rel Undefined h o)
         = events (series w rel removeTasks h o)
      /\ result (removeRelease w rel Undefined h o)
         = result (removeRelease w rel Caller h o)).
Proof.
  unfold deployRelease, removeRelease, or_noop.
  split.
  - destruct (series w rel deployTasks h o) as [evs o' [x| | |]]; simpl;
      rewrite ?app_nil_r; auto.
  - destruct (series w rel removeTasks h o) as [evs o' [x| | |]]; simpl;
      rewrite ?app_nil_r; auto.
Qed.

(** Without the substitution the final callback would call [undefined]. *)
Example undefined_callback_throws :
  call Undefined [] = ([], Threw "TypeError: done is not a function")
  /\ call (or_noop Undefined) [] = ([], Returned tt).
Proof. split; reflexivity. Qed.

(** *** Which tasks can end the series with an error *)

Lemma never_fails_ret_none : never_fails (ret None).
Proof. intros h o e. discriminate. Qed.

Lemma never_fails_bind A (m : M A) (f : A -> M (option string)) :
  (forall a, never_fails (f a)) -> never_fails (bind m f).
Proof.
  intros Hf h o e. rewrite bind_eq.
  destruct (outcome (m h o)) as [a| | |]; simpl; try discriminate.
  apply Hf.
Qed.

Lemma never_fails_stalled : never_fails (finish Stalled).
Proof. intros h o e. discriminate. Qed.

Lemma never_fails_threw err : never_fails (finish (Threw err)).
Proof. intros h o e. discriminate. Qed.

Lemma never_fails_fatal message : never_fails (logger_fatal message).
Proof. intros h o e. discriminate. Qed.

Create HintDb fails.

#[local] Hint Resolve never_fails_ret_none never_fails_stalled
  never_fails_threw never_fails_fatal : fails.

(** Takes a task apart down to the last thing it does. *)
Ltac never_fails :=
  repeat first
    [ progress auto with fails
    | apply never_fails_bind; intro
    | match goal with
      | |- never_fails (if ?b then _ else _) => destruct b
      | |- never_fails (match ?x with _ => _ end) => destruct x
      | |- never_fails (let (_, _) := ?x in _) => destruct x
      end ].

Lemma never_fails_run_commands w commands : never_fails (run_commands w commands).
Proof. unfold run_commands. never_fails. Qed.

Lemma never_fails_middleware w p commandsFunction :
  never_fails (middlewareCallbackExecute w p commandsFunction).
Proof.
  destruct commandsFunction; unfold middlewareCallbackExecute.
  - auto with fails.
  - apply never_fails_run_commands.
  - repeat (apply never_fails_bind; intro).
    destruct (middleware_reply w p a0 a1) as [o' out].
    repeat (apply never_fails_bind; intro). apply never_fails_run_commands.
Qed.

Lemma never_fails_task w rel t :
  hands_over_callback t = false -> never_fails (run_task w rel t).
Proof.
  destruct t; simpl; try discriminate; intros _; unfold run_task;
    try (unfold onBeforeDeployExecuteTask, onBeforeLinkExecuteTask,
           onAfterDeployExecuteTask;
         apply never_fails_bind; intro; now apply never_fails_middleware);
    unfold connectToRemoteTask, compressReleaseTask,
      createReleaseFolderOnRemoteTask, uploadArchiveTask, uploadReleaseTask,
      decompressArchiveOnRemoteTask, updateSharedSymbolicLinkOnRemoteTask,
      createFolderTask, makeDirectoriesWritableTask, makeFilesExecutableTask,
      updateCurrentSymbolicLinkOnRemoteTask, remoteCleanupTask,
      deleteLocalArchiveTask, removeReleaseTask;
    now never_fails.
Qed.

(** A task of the file's own never calls its callback with an error: the
    final callbacks of the list stages drop the error of [async.eachSeries],
    and the other tasks call [done()] bare.  So when a series ends with an
    error, the error was handed over by a hook or by the close of the
    connection, and that task is the last one that ran. *)
Theorem errors_come_from_handed_over_callbacks (w : World) (rel : Release) :
  (forall t h o e,
      outcome (run_task w rel t h o) = Returned (Some e) ->
      hands_over_callback t = true)
  /\ (forall tasks h o e,
         result (series w rel tasks h o) = Returned (Some e) ->
         exists t before,
           hands_over_callback t = true
           /\ In t tasks
           /\ events (series w rel tasks h o)
              = before ++ [Signalled t (Some e)]).
Proof.
  assert (Htask : forall t h o e,
             outcome (run_task w rel t h o) = Returned (Some e) ->
             hands_over_callback t = true).
  { intros t h o e Hout.
    destruct (hands_over_callback t) eqn:Ht; trivial.
    exact (False_ind _ (@never_fails_task w rel t Ht h o e Hout)). }
  split; [exact Htask|].
  induction tasks as [|t rest IH]; intros h o e; [discriminate|].
  rewrite series_cons.
  destruct (outcome (run_task w rel t h o)) as [[x|]| | |] eqn:Hout;
    cbn [result events]; try discriminate.
  - intros Hres. injection Hres as ->.
    exists t, (Started t :: map Did (emitted (run_task w rel t h o))).
    repeat split; [eapply Htask; eauto | now left].
  - intros Hres. destruct (IH _ _ _ Hres) as (t' & before & Ht' & Hin & Hev).
    exists t', (Started t :: map Did (emitted (run_task w rel t h o))
                  ++ Signalled t None :: before).
    repeat split; [exact Ht' | now right |].
    rewrite Hev. simpl. now rewrite <- app_assoc.
Qed.

Lemma errors_come_from_handed_over_callbacks_witness :
  hands_over_callback OnBeforeLinkHook = true
  /\ exists t before,
      hands_over_callback t = true
      /\ In t deployTasks
      /\ events (series hook_failing sample_release deployTasks []
                        archive_options)
         = before ++ [Signalled t (Some "hook failed")].
Proof.
  destruct (errors_come_from_handed_over_callbacks hook_failing sample_release)
    as [Htask Hseries].
  split.
  - apply (Htask OnBeforeLinkHook [] archive_options "hook failed").
    vm_compute. reflexivity.
  - apply (Hseries deployTasks [] archive_options "hook failed").
    vm_compute. reflexivity.
Defined.

(** *** When the caller's callback is not called *)

(** The caller's [done] is called only from the final callback of the
    series: when a stage never calls its callback, ends the process or
    throws, [done] is not called at all and nothing follows the events of
    the series. *)
Theorem done_needs_the_final_callback (w : World) (rel : Release)
        (h : list Action) (o : Options) :
  ((forall e, result (series w rel deployTasks h o) <> Returned e) ->
   completions (events (deployRelease w rel Caller h o)) = []
   /\ events (deployRelease w rel Caller h o)
      = events (series w rel deployTasks h o)
   /\ result (deployRelease w rel Caller h o) <> Returned tt)
  /\ ((forall e, result (series w rel removeTasks h o) <> Returned e) ->
      completions (events (removeRelease w rel Caller h o)) = []
      /\ events (removeRelease w rel Caller h o)
         = events (series w rel removeTasks h o)
      /\ result (removeRelease w rel Caller h o) <> Returned tt).
Proof.
  unfold deployRelease, removeRelease, or_noop.
  split; intros Hnot.
  - pose proof (series_completions w rel deployTasks h o) as Hnone.
    destruct (series w rel deployTasks h o) as [evs o' [x| | |]];
      simpl in *; [now elim (Hnot x) | | |]; repeat split; trivial;
      discriminate.
  - pose proof (series_completions w rel removeTasks h o) as Hnone.
    destruct (series w rel removeTasks h o) as [evs o' [x| | |]];
      simpl in *; [now elim (Hnot x) | | |]; repeat split; trivial;
      discriminate.
Qed.

Lemma done_needs_the_final_callback_witness :
  completions (events (deployRelease upload_failing sample_release Caller []
                                     archive_options)) = []
  /\ completions (events (removeRelease connect_refusing sample_release
                                        Caller [] archive_options)) = [].
Proof.
  split.
  - apply (proj1 (done_needs_the_final_callback upload_failing sample_release
                                                [] archive_options)).
    intros e. vm_compute. discriminate.
  - apply (proj2 (done_needs_the_final_callback connect_refusing sample_release
                                                [] archive_options)).
    intros e. vm_compute. discriminate.
Defined.

(** *** Connecting *)

Lemma bind_notify_all A ns (k : unit -> M A) h o :
  bind (notify_all ns) k h o
  = prepend (notices o ns) (k tt (h ++ notices o ns) o).
Proof.
  unfold bind. rewrite notify_all_eq.
  destruct (k tt (h ++ notices o ns) o); reflexivity.
Qed.

Lemma outcome_prepend A acts (r : Res A) : outcome (prepend acts r) = outcome r.
Proof. reflexivity. Qed.

Lemma opts_prepend A acts (r : Res A) : opts (prepend acts r) = opts r.
Proof. reflexivity. Qed.

Lemma connect_task (w : World) (h : list Action) (o : Options) :
  exists seen,
    remote_calls (emitted (connectToRemoteTask w h o)) = [Connect]
    /\ opts (connectToRemoteTask w h o) = o
    /\ outcome (connectToRemoteTask w h o)
       = match snd (connect_reply w seen) with
         | Connected => Returned None
         | ConnectFailed (Some _) => Exited
         | ConnectFailed None => Stalled
         | ConnectPending => Stalled
         end.
Proof.
  unfold connectToRemoteTask.
  rewrite bind_get_options, !bind_log, bind_emit, bind_get_history.
  match goal with
  | |- context [connect_reply w ?hh] => exists hh; destruct (connect_reply w hh) as [ns a]
  end.
  rewrite bind_notify_all. cbn [snd].
  destruct a as [|[e|]|]; unfold logger_fatal;
    rewrite ?bind_log; rewrite ?outcome_prepend, ?opts_prepend;
    (split; [calls; try reflexivity | split; reflexivity]).
Qed.

(** [connectToRemoteTask] makes the one call [connect] and leaves the
    options alone.  It calls [done] exactly when the connection is made; a
    connection error that carries a value is logged as fatal and ends the
    process through [logger.fatal], and one without a value, like no answer
    at all, leaves [done] uncalled. *)
Theorem connect_outcomes (w : World) (h : list Action) (o : Options) :
  exists seen,
    remote_calls (emitted (connectToRemoteTask w h o)) = [Connect]
    /\ opts (connectToRemoteTask w h o) = o
    /\ outcome (connectToRemoteTask w h o)
       = match snd (connect_reply w seen) with
         | Connected => Returned None
         | ConnectFailed (Some _) => Exited
         | ConnectFailed None => Stalled
         | ConnectPending => Stalled
         end
    /\ (forall e,
           snd (connect_reply w seen) = ConnectFailed (Some e) ->
           In (Log Fatal [e]) (emitted (connectToRemoteTask w h o))).
Proof.
  unfold connectToRemoteTask.
  rewrite bind_get_options, !bind_log, bind_emit, bind_get_history.
  match goal with
  | |- context [connect_reply w ?hh] =>
      exists hh; destruct (connect_reply w hh) as [ns a]
  end.
  rewrite bind_notify_all. cbn [snd].
  destruct a as [|[e|]|]; unfold logger_fatal;
    rewrite ?bind_log; rewrite ?outcome_prepend, ?opts_prepend;
    (split; [calls; try reflexivity|]); (split; [reflexivity|]);
    (split; [reflexivity|]); intros e'; try discriminate.
  intros He. injection He as ->.
  rewrite !emitted_prepend. do 5 (apply in_or_app; right).
  apply in_or_app. left. now left.
Qed.

Lemma connect_outcomes_witness :
  remote_calls (emitted (connectToRemoteTask connect_refusing []
                                             archive_options))
  = [Connect]
  /\ opts (connectToRemoteTask connect_refusing [] archive_options)
     = archive_options
  /\ outcome (connectToRemoteTask connect_refusing [] archive_options)
     = Exited
  /\ In (Log Fatal ["ECONNREFUSED"])
        (emitted (connectToRemoteTask connect_refusing [] archive_options)).
Proof.
  destruct (connect_outcomes connect_refusing [] archive_options)
    as (seen & Hcalls & Hopts & Hout & Hfatal).
  split; [exact Hcalls|]. split; [exact Hopts|]. split; [exact Hout|].
  apply Hfatal. reflexivity.
Defined.


(** *** What the tasks never do *)

Section EmitsOnly.

Variable p : Action -> bool.
Hypothesis logs_pass : forall level text, p (Log level text) = true.

Lemma emits_ret A (a : A) : emits_only p (ret a).
Proof. intros h o. reflexivity. Qed.

Lemma emits_finish A (out : Outcome A) : emits_only p (finish out).
Proof. intros h o. reflexivity. Qed.

Lemma emits_get_options : emits_only p get_options.
Proof. intros h o. reflexivity. Qed.

Lemma emits_get_history : emits_only p get_history.
Proof. intros h o. reflexivity. Qed.

Lemma emits_put_options o' : emits_only p (put_options o').
Proof. intros h o. reflexivity. Qed.

Lemma emits_emit a : p a = true -> emits_only p (emit a).
Proof. intros Ha h o. simpl. now rewrite Ha. Qed.

Lemma emits_log level text : emits_only p (log level text).
Proof. apply emits_emit, logs_pass. Qed.

Lemma emits_bind A B (m : M A) (f : A -> M B) :
  emits_only p m -> (forall a, emits_only p (f a)) -> emits_only p (bind m f).
Proof.
  intros Hm Hf h o. rewrite bind_eq.
  destruct (outcome (m h o)) as [a| | |]; cbn [emitted]; try apply Hm.
  rewrite forallb_app, Hm. apply Hf.
Qed.

Lemma emits_fatal A message : emits_only p (@logger_fatal A message).
Proof. apply emits_bind; [apply emits_log | intros; apply emits_finish]. Qed.

Lemma notices_pass o ns : forallb p (notices o ns) = true.
Proof.
  induction ns as [|n ns IH]; [reflexivity|].
  destruct n; simpl; now rewrite ?logs_pass, IH.
Qed.

Lemma emits_notify_all ns : emits_only p (notify_all ns).
Proof. intros h o. rewrite notify_all_eq. apply notices_pass. Qed.

Lemma emits_remote w c : p (Call c) = true -> emits_only p (remote w c).
Proof.
  intros Hc h o. rewrite remote_eq. simpl. rewrite Hc. apply notices_pass.
Qed.

Lemma emits_reversePath w symlinkName : emits_only p (reversePath w symlinkName).
Proof. intros h o. unfold reversePath. now destruct (getReversePath _ _). Qed.

Lemma performed_pass w o h cs :
  forallb p (map context_action cs) = true ->
  forallb p (performed w o h cs) = true.
Proof.
  revert h. induction cs as [|c cs IH]; intros h; [reflexivity|].
  simpl. intros Hcs. apply andb_true_iff in Hcs. destruct Hcs as [Hc Hcs].
  rewrite forallb_app, IH by exact Hcs. rewrite andb_true_r.
  unfold performed_by.
  destruct (context_action c); simpl; rewrite Hc; trivial.
  apply notices_pass.
Qed.

Lemma emits_context_calls w cs :
  forallb p (map context_action cs) = true ->
  emits_only p (context_calls w cs).
Proof.
  intros Hcs h o. rewrite context_calls_eq. now apply performed_pass.
Qed.

Lemma emits_eachSeries A (items : list A) iteratee :
  (forall item, emits_only p (iteratee item)) ->
  emits_only p (eachSeries items iteratee).
Proof.
  intros Hit. induction items as [|item rest IH]; simpl.
  - apply emits_ret.
  - apply emits_bind; [apply Hit|].
    intros [e|]; [apply emits_ret | exact IH].
Qed.

End EmitsOnly.

(** Takes a task apart along its binds and branches; the test is decided on
    each action the task names. *)
Ltac emits :=
  repeat first
    [ apply emits_ret | apply emits_finish | apply emits_get_options
    | apply emits_get_history | apply emits_put_options
    | apply emits_log; intros; reflexivity
    | apply emits_fatal; intros; reflexivity
    | apply emits_notify_all; intros; reflexivity
    | apply emits_reversePath; intros; reflexivity
    | apply emits_remote; [intros; reflexivity | reflexivity]
    | apply emits_emit; reflexivity
    | apply emits_bind; [ | intro ]
    | apply emits_eachSeries; intro
    | match goal with
      | |- emits_only _ (if ?b then _ else _) => destruct b
      | |- emits_only _ (match ?x with _ => _ end) => destruct x
      | |- emits_only _ (let (_, _) := ?x in _) => destruct x
      end ].

Lemma emits_run_commands p w commands :
  (forall level text, p (Log level text) = true) ->
  (forall command, p (Call (Exec command true)) = true) ->
  emits_only p (run_commands w commands).
Proof.
  intros Hlog Hexec. unfold run_commands.
  destruct commands as [[|c cs]|]; try apply emits_ret.
  apply emits_bind; [|intro; apply emits_bind;
                      [now apply emits_log | intro; apply emits_ret]].
  apply emits_eachSeries. intro command.
  apply emits_bind; [now apply emits_log|]. intro.
  apply emits_remote; auto.
Qed.

Lemma emits_middleware p w ph commandsFunction :
  (forall level text, p (Log level text) = true) ->
  (forall command, p (Call (Exec command true)) = true) ->
  p (Resolve ph) = true ->
  user_calls_pass p w ->
  emits_only p (middlewareCallbackExecute w ph commandsFunction).
Proof.
  intros Hlog Hexec Hres [_ Huser].
  destruct commandsFunction; unfold middlewareCallbackExecute.
  - apply emits_ret.
  - now apply emits_run_commands.
  - apply emits_bind; [now apply emits_emit | intro].
    apply emits_bind; [apply emits_get_history | intro].
    apply emits_bind; [apply emits_get_options | intro].
    apply emits_bind; [now apply emits_context_calls | intro].
    destruct (middleware_reply w ph a0 a1) as [o' out].
    apply emits_bind; [apply emits_put_options | intro].
    apply emits_bind; [apply emits_finish | intro].
    now apply emits_run_commands.
Qed.

Lemma emits_hook p w hk :
  (forall level text, p (Log level text) = true) ->
  p (Hook hk) = true ->
  user_calls_pass p w ->
  emits_only p (run_hook w hk).
Proof.
  intros Hlog Hhook [Huser _]. unfold run_hook.
  apply emits_bind; [now apply emits_emit | intro].
  apply emits_bind; [apply emits_get_history | intro].
  apply emits_bind; [apply emits_get_options | intro].
  apply emits_bind; [now apply emits_context_calls | intro].
  destruct (hook_reply w hk a0 a1) as [o' out].
  apply emits_bind; [apply emits_put_options | intro; apply emits_finish].
Qed.

(** The context holds no wrapper of [connect], [close], [synchronize] or
    [removeOldFolders], and calls no hook. *)
Lemma context_calls_pass p w :
  (forall level text, p (Log level text) = true) ->
  (forall c, p (Call c)
             = match c with
               | Exec _ _ | ExecMultiple _ _ | Upload _ _
               | CreateSymboliclink _ _ | Chmod _ _ | CreateFolder _ => true
               | _ => p (Call c)
               end) ->
  user_calls_pass p w.
Proof.
  intros Hlog Hcalls.
  assert (Hall : forall cs, forallb p (map context_action cs) = true).
  { induction cs as [|c cs IH]; [reflexivity|].
    simpl. rewrite IH, andb_true_r.
    destruct c; simpl; try apply Hlog; now rewrite Hcalls. }
  split; intros; apply Hall.
Qed.

Lemma context_within_connection w : user_calls_pass within_connection w.
Proof.
  apply context_calls_pass; [reflexivity|]. intros c. now destruct c.
Qed.

(** Unfolds the tasks that are plain sequences of logs and remote calls. *)
Ltac unfold_tasks :=
  unfold run_task, onBeforeDeployTask, onBeforeLinkTask, onAfterDeployTask,
    onBeforeDeployExecuteTask, onBeforeLinkExecuteTask,
    onAfterDeployExecuteTask, connectToRemoteTask, compressReleaseTask,
    createReleaseFolderOnRemoteTask, uploadArchiveTask, uploadReleaseTask,
    decompressArchiveOnRemoteTask, updateSharedSymbolicLinkOnRemoteTask,
    shareItem, createFolderTask, makeDirectoriesWritableTask,
    makeFilesExecutableTask, updateCurrentSymbolicLinkOnRemoteTask,
    remoteCleanupTask, deleteLocalArchiveTask, closeConnectionTask,
    removeReleaseTask.

Lemma task_within_connection w rel t :
  t <> ConnectToRemote -> t <> CloseConnection ->
  emits_only within_connection (run_task w rel t).
Proof.
  intros Hconnect Hclose.
  pose proof (context_within_connection w) as Huser.
  destruct t; try congruence; unfold_tasks;
    try (now apply emits_hook);
    try (apply emits_bind; [apply emits_get_options | intro];
         now apply emits_middleware);
    now emits.
Qed.

(** *** The connection from [connect] to [close] *)

Lemma actions_of_app a b : actions_of (a ++ b) = actions_of a ++ actions_of b.
Proof. unfold actions_of. apply flat_map_app. Qed.

Lemma actions_of_actions acts : actions_of (map Did acts) = acts.
Proof. induction acts as [|a acts IH]; simpl; [reflexivity | now rewrite IH]. Qed.

Lemma series_actions w rel t rest h o :
  actions_of (events (series w rel (t :: rest) h o))
  = emitted (run_task w rel t h o)
      ++ match outcome (run_task w rel t h o) with
         | Returned None =>
             actions_of (events (series w rel rest
                                        (h ++ emitted (run_task w rel t h o))
                                        (opts (run_task w rel t h o))))
         | _ => []
         end.
Proof.
  rewrite series_cons.
  destruct (outcome (run_task w rel t h o)) as [[e|]| | |]; cbn [events];
    change (Started t :: ?l) with ([Started t] ++ l);
    rewrite !actions_of_app, actions_of_actions; simpl;
    rewrite ?app_nil_r; trivial.
Qed.

Lemma series_started w rel t rest h o :
  started (events (series w rel (t :: rest) h o))
  = t :: match outcome (run_task w rel t h o) with
         | Returned None =>
             started (events (series w rel rest
                                     (h ++ emitted (run_task w rel t h o))
                                     (opts (run_task w rel t h o))))
         | _ => []
         end.
Proof.
  rewrite series_cons.
  destruct (outcome (run_task w rel t h o)) as [[e|]| | |]; cbn [events];
    change (Started t :: ?l) with ([Started t] ++ l);
    rewrite !started_app, started_actions; simpl;
    rewrite ?app_nil_r; trivial.
Qed.

Lemma finally_actions done r :
  actions_of (events (finally done r)) = actions_of (events r).
Proof.
  destruct (finally_events done r) as (tail & -> & [-> | ->]);
    rewrite actions_of_app; simpl; apply app_nil_r.
Qed.

Lemma finally_started done r :
  started (events (finally done r)) = started (events r).
Proof.
  destruct (finally_events done r) as (tail & -> & [-> | ->]);
    rewrite started_app; simpl; apply app_nil_r.
Qed.

Lemma inner_calls acts :
  forallb within_connection acts = true ->
  forallb (fun c => negb (lifecycle_call c)) (remote_calls acts) = true.
Proof.
  induction acts as [|a acts IH]; [reflexivity|].
  simpl. intros H. apply andb_prop in H. destruct H as [Ha Hrest].
  destruct a; try (now apply IH).
  rewrite remote_calls_call. simpl in *. now rewrite Ha, IH.
Qed.

Lemma close_calls w h o :
  remote_calls (emitted (closeConnectionTask w h o)) = [Close].
Proof.
  unfold closeConnectionTask. rewrite remote_eq. cbn [emitted]. now calls.
Qed.

(** The tasks between the first and the last, then the close. *)
Lemma calls_until_close w rel mid :
  ~ In ConnectToRemote mid -> ~ In CloseConnection mid ->
  forall h o,
  exists middle tail,
    calls_of (events (series w rel (mid ++ [CloseConnection]) h o))
    = middle ++ tail
    /\ forallb (fun c => negb (lifecycle_call c)) middle = true
    /\ (tail = []
        \/ (tail = [Close]
            /\ started (events (series w rel (mid ++ [CloseConnection]) h o))
               = mid ++ [CloseConnection])).
Proof.
  intros Hconnect Hclose. unfold calls_of.
  induction mid as [|t mid IH]; intros h o.
  - exists [], [Close]. simpl app.
    rewrite series_actions, series_started.
    change (run_task w rel CloseConnection) with (closeConnectionTask w).
    rewrite remote_calls_app, close_calls.
    repeat split; [|right; split; trivial].
    + now destruct (outcome _) as [[e|]| | |].
    + now destruct (outcome _) as [[e|]| | |].
  - simpl app. rewrite series_actions, series_started, remote_calls_app.
    assert (Ht : forallb (fun c => negb (lifecycle_call c))
                         (remote_calls (emitted (run_task w rel t h o)))
                 = true).
    { apply inner_calls, task_within_connection; intros ->;
        [apply Hconnect | apply Hclose]; now left. }
    destruct (outcome (run_task w rel t h o)) as [[e|]| | |];
      try (exists (remote_calls (emitted (run_task w rel t h o))), [];
           rewrite !app_nil_r; now auto).
    destruct (IH (fun H => Hconnect (or_intror H))
                 (fun H => Hclose (or_intror H))
                 (h ++ emitted (run_task w rel t h o))
                 (opts (run_task w rel t h o)))
      as (middle & tail & Hcalls & Hmiddle & Htail).
    exists (remote_calls (emitted (run_task w rel t h o)) ++ middle), tail.
    rewrite Hcalls, app_assoc, forallb_app, Ht, Hmiddle.
    repeat split. destruct Htail as [-> | [-> Hstarted]]; [now left|].
    right. now rewrite Hstarted.
Qed.

Lemma calls_of_connection w rel mid h o :
  ~ In ConnectToRemote mid -> ~ In CloseConnection mid ->
  exists middle tail,
    calls_of (events (series w rel (ConnectToRemote :: mid ++ [CloseConnection])
                             h o))
    = Connect :: middle ++ tail
    /\ forallb (fun c => negb (lifecycle_call c)) middle = true
    /\ (tail = []
        \/ (tail = [Close]
            /\ started (events (series w rel
                                       (ConnectToRemote
                                          :: mid ++ [CloseConnection]) h o))
               = ConnectToRemote :: mid ++ [CloseConnection])).
Proof.
  intros Hconnect Hclose. unfold calls_of.
  rewrite series_actions, series_started, remote_calls_app.
  change (run_task w rel ConnectToRemote) with (connectToRemoteTask w).
  destruct (connect_task w h o) as (seen & Hcalls & _ & _). rewrite Hcalls.
  destruct (outcome (connectToRemoteTask w h o)) as [[e|]| | |];
    try (exists [], []; now auto).
  destruct (@calls_until_close w rel mid Hconnect Hclose
              (h ++ emitted (connectToRemoteTask w h o))
              (opts (connectToRemoteTask w h o)))
    as (middle & tail & Hrest & Hmiddle & Htail).
  exists middle, tail. unfold calls_of in Hrest. rewrite Hrest.
  repeat split; trivial.
  destruct Htail as [-> | [-> Hstarted]]; [now left|].
  right. now rewrite Hstarted.
Qed.

(** In every run of [deployRelease] and of [removeRelease] the first remote
    call is [connect], and it is made once; [close] is made at most once
    and nothing follows it; and [close] is made only when every stage has
    started, so a stage that fails, stalls or ends with an error leaves the
    connection open. *)
Theorem connection_opens_first_closes_last (w : World) (rel : Release)
        (done : Callback) (h : list Action) (o : Options) :
  (exists middle tail,
      calls_of (events (deployRelease w rel done h o))
      = Connect :: middle ++ tail
      /\ forallb (fun c => negb (lifecycle_call c)) middle = true
      /\ (tail = []
          \/ (tail = [Close]
              /\ started (events (deployRelease w rel done h o))
                 = deployTasks)))
  /\ (exists middle tail,
         calls_of (events (removeRelease w rel done h o))
         = Connect :: middle ++ tail
         /\ forallb (fun c => negb (lifecycle_call c)) middle = true
         /\ (tail = []
             \/ (tail = [Close]
                 /\ started (events (removeRelease w rel done h o))
                    = removeTasks))).
Proof.
  unfold deployRelease, removeRelease, calls_of.
  rewrite !finally_actions, !finally_started.
  split.
  - change deployTasks
      with (ConnectToRemote
              :: [OnBeforeDeployHook; OnBeforeDeployExecute; CompressRelease;
                  CreateReleaseFolderOnRemote; UploadArchive; UploadRelease;
                  DecompressArchiveOnRemote; OnBeforeLinkHook;
                  OnBeforeLinkExecute; UpdateSharedSymbolicLinkOnRemote;
                  CreateFolders; MakeDirectoriesWritable; MakeFilesExecutable;
                  UpdateCurrentSymbolicLinkOnRemote; OnAfterDeployHook;
                  OnAfterDeployExecute; RemoteCleanup; DeleteLocalArchive]
              ++ [CloseConnection]).
    apply calls_of_connection; simpl; intuition discriminate.
  - change removeTasks
      with (ConnectToRemote :: [RemoveRelease] ++ [CloseConnection]).
    apply calls_of_connection; simpl; intuition discriminate.
Qed.

(** When the connection is not made, nothing but the connect stage runs:
    no other stage starts, no other remote call is made, and the caller's
    [done] is never called. *)
Theorem failed_connection_stops_the_run (w : World) (rel : Release)
        (h : list Action) (o : Options) :
  (forall seen, snd (connect_reply w seen) <> Connected) ->
  (started (events (deployRelease w rel Caller h o)) = [ConnectToRemote]
   /\ calls_of (events (deployRelease w rel Caller h o)) = [Connect]
   /\ completions (events (deployRelease w rel Caller h o)) = [])
  /\ (started (events (removeRelease w rel Caller h o)) = [ConnectToRemote]
      /\ calls_of (events (removeRelease w rel Caller h o)) = [Connect]
      /\ completions (events (removeRelease w rel Caller h o)) = []).
Proof.
  intros Hrefused.
  assert (Hseries : forall tasks,
             started (events (series w rel (ConnectToRemote :: tasks) h o))
             = [ConnectToRemote]
             /\ calls_of (events (series w rel (ConnectToRemote :: tasks) h o))
                = [Connect]
             /\ forall e, result (series w rel (ConnectToRemote :: tasks) h o)
                          <> Returned e).
  { intros tasks. unfold calls_of.
    rewrite series_started, series_actions, remote_calls_app, series_cons.
    change (run_task w rel ConnectToRemote) with (connectToRemoteTask w).
    destruct (connect_task w h o) as (seen & Hcalls & _ & Hout).
    rewrite Hcalls, Hout. specialize (Hrefused seen).
    destruct (snd (connect_reply w seen)) as [|[e|]|];
      [now elim Hrefused | | |]; repeat split; try discriminate. }
  unfold deployRelease, removeRelease, calls_of, or_noop.
  rewrite !finally_actions, !finally_started, !finally_completions,
    !series_completions.
  destruct (Hseries (tl deployTasks)) as (Hs & Hc & Hr).
  destruct (Hseries (tl removeTasks)) as (Hs' & Hc' & Hr').
  simpl tl in *. fold deployTasks in Hs, Hc, Hr. fold removeTasks in Hs', Hc', Hr'.
  repeat split; trivial.
  - destruct (result (series w rel deployTasks h o)); trivial. now elim (Hr a).
  - destruct (result (series w rel removeTasks h o)); trivial. now elim (Hr' a).
Qed.

Lemma failed_connection_stops_the_run_witness :
  started (events (deployRelease connect_refusing sample_release Caller []
                                 archive_options))
  = [ConnectToRemote]
  /\ calls_of (events (removeRelease connect_refusing sample_release Caller []
                                     archive_options))
     = [Connect].
Proof.
  assert (Hrefused : forall seen,
             snd (connect_reply connect_refusing seen) <> Connected)
    by (intros seen; vm_compute; discriminate).
  destruct (@failed_connection_stops_the_run
              connect_refusing sample_release [] archive_options Hrefused)
    as [(Hs & _) (_ & Hc & _)].
  split; assumption.
Defined.

(** *** One transfer per run *)

Lemma archive_tasks_skip w rel h o :
  mode o <> "archive" ->
  compressReleaseTask w h o = mkRes [] o (Returned None)
  /\ uploadArchiveTask w rel h o = mkRes [] o (Returned None)
  /\ deleteLocalArchiveTask w h o = mkRes [] o (Returned None).
Proof.
  intros Hmode. apply String.eqb_neq in Hmode.
  unfold compressReleaseTask, uploadArchiveTask, deleteLocalArchiveTask.
  rewrite !bind_get_options, Hmode. auto.
Qed.

Lemma synchronize_task_skips w rel h o :
  mode o <> "synchronize" ->
  uploadReleaseTask w rel h o = mkRes [] o (Returned None).
Proof.
  intros Hmode. apply String.eqb_neq in Hmode.
  unfold uploadReleaseTask. now rewrite bind_get_options, Hmode.
Qed.

Lemma context_no_synchronize w : user_calls_pass no_synchronize_action w.
Proof.
  apply context_calls_pass; [reflexivity|]. intros c. now destruct c.
Qed.

Lemma task_no_archive_action w rel t h o :
  mode o <> "archive" ->
  user_calls_pass no_archive_action w ->
  forallb no_archive_action (emitted (run_task w rel t h o)) = true.
Proof.
  intros Hmode Huser.
  destruct (@archive_tasks_skip w rel h o Hmode) as (Hc & Hu & Hd).
  destruct t; unfold run_task; rewrite ?Hc, ?Hu, ?Hd; trivial;
    revert h o Hmode Hc Hu Hd;
    match goal with
    | |- forall h o, _ -> _ -> _ -> _ -> forallb ?p (emitted (?m h o)) = true =>
        intros h o _ _ _ _; revert h o; change (emits_only p m)
    end;
    unfold_tasks;
    try (now apply emits_hook);
    try (apply emits_bind; [apply emits_get_options | intro];
         now apply emits_middleware);
    now emits.
Qed.

Lemma task_no_synchronize_action w rel t h o :
  mode o <> "synchronize" ->
  forallb no_synchronize_action (emitted (run_task w rel t h o)) = true.
Proof.
  intros Hmode.
  pose proof (@synchronize_task_skips w rel h o Hmode) as Hs.
  pose proof (context_no_synchronize w) as Huser.
  destruct t; unfold run_task; rewrite ?Hs; trivial;
    revert h o Hmode Hs;
    match goal with
    | |- forall h o, _ -> _ -> forallb ?p (emitted (?m h o)) = true =>
        intros h o _ _; revert h o; change (emits_only p m)
    end;
    unfold_tasks;
    try (now apply emits_hook);
    try (apply emits_bind; [apply emits_get_options | intro];
         now apply emits_middleware);
    now emits.
Qed.

Lemma series_emits w rel p (inv : Options -> Prop) tasks :
  (forall t h o, inv o ->
                 forallb p (emitted (run_task w rel t h o)) = true
                 /\ inv (opts (run_task w rel t h o))) ->
  forall h o, inv o ->
              forallb p (actions_of (events (series w rel tasks h o))) = true.
Proof.
  intros Htask. induction tasks as [|t rest IH]; intros h o Ho; [reflexivity|].
  rewrite series_actions, forallb_app.
  destruct (Htask t h o Ho) as [Hp Hinv]. rewrite Hp.
  destruct (outcome (run_task w rel t h o)) as [[e|]| | |]; trivial.
  now apply IH.
Qed.

Lemma task_keeps_mode w rel t h o :
  user_code_keeps_options w -> mode (opts (run_task w rel t h o)) = mode o.
Proof.
  intros Huser. rewrite task_options by exact Huser.
  destruct t; trivial. now destruct (releasesToKeep o <? 1)%Z.
Qed.

(** A run makes one kind of transfer.  Provided the hooks and middleware
    functions do not write to the options: when the mode is not [archive]
    and neither a hook nor a middleware function uploads through the
    context, no stage of [deployRelease] calls the archiver, uploads, or
    removes a local archive; when the mode is not [synchronize], no stage
    calls [synchronize], for which the context holds no wrapper. *)
Theorem transfer_follows_the_mode (w : World) (rel : Release)
        (done : Callback) (h : list Action) (o : Options) :
  user_code_keeps_options w ->
  (mode o <> "archive" ->
   user_calls_pass no_archive_action w ->
   forallb no_archive_action
           (actions_of (events (deployRelease w rel done h o))) = true)
  /\ (mode o <> "synchronize" ->
      forallb no_synchronize_action
              (actions_of (events (deployRelease w rel done h o))) = true).
Proof.
  intros Huser. unfold deployRelease. rewrite finally_actions.
  split.
  - intros Hmode Hcalls.
    apply series_emits with (inv := fun o' => mode o' = mode o); trivial.
    intros t h' o' Ho'. split.
    + apply task_no_archive_action; [now rewrite Ho' | exact Hcalls].
    + now rewrite task_keeps_mode.
  - intros Hmode.
    apply series_emits with (inv := fun o' => mode o' = mode o); trivial.
    intros t h' o' Ho'. split.
    + apply task_no_synchronize_action. now rewrite Ho'.
    + now rewrite task_keeps_mode.
Qed.

Lemma obliging_keeps_options : user_code_keeps_options obliging.
Proof. split; intros; reflexivity. Qed.

Lemma meddling_keeps_options : user_code_keeps_options meddling.
Proof. split; intros; reflexivity. Qed.

Lemma transfer_follows_the_mode_witness :
  forallb no_archive_action
          (actions_of (events (deployRelease obliging sample_release Caller []
                                             synchronize_options))) = true
  /\ forallb no_synchronize_action
             (actions_of (events (deployRelease meddling sample_release Caller
                                                [] archive_options))) = true.
Proof.
  split.
  - apply (proj1 (@transfer_follows_the_mode
                    obliging sample_release Caller [] synchronize_options
                    obliging_keeps_options)).
    + vm_compute. discriminate.
    + split; intros; reflexivity.
  - apply (proj2 (@transfer_follows_the_mode
                    meddling sample_release Caller [] archive_options
                    meddling_keeps_options)).
    vm_compute. discriminate.
Defined.

(** A hook that uploads through the context does so in either mode: the
    upload of a synchronizing run below is the hook's, not a stage's. *)
Example hook_uploads_through_the_context :
  calls_of (events (series meddling sample_release
                           [ConnectToRemote; OnBeforeDeployHook;
                            OnBeforeDeployExecute; CompressRelease;
                            CreateReleaseFolderOnRemote; UploadArchive;
                            UploadRelease]
                           [] synchronize_options))
  = [Connect;
     Upload "maintenance.html" "/var/www/maintenance.html";
     CreateFolder "/var/www/releases/2026-01-02-03-04-05";
     Synchronize "dist/" "/var/www/releases/2026-01-02-03-04-05"
                 "/var/www/synchronized"].
Proof. reflexivity. Qed.

(** *** The list stages: one remote call for each item *)

Section OneCallPerItem.

Variable w : World.
Variable A : Type.
Variable level : LogLevel.
Variable text : A -> list string.
Variable mk : A -> RemoteCall.

Lemma iteratee_eq item h o :
  (call_per_item w level text mk) item h o
  = mkRes (Log level (text item) :: Call (mk item)
             :: notices o (notes (remote_reply
                                    w ((h ++ [Log level (text item)])
                                         ++ [Call (mk item)]) (mk item))))
          o
          (answer (remote_reply w ((h ++ [Log level (text item)])
                                     ++ [Call (mk item)]) (mk item))).
Proof.
  unfold call_per_item. rewrite bind_log, remote_eq. reflexivity.
Qed.

Lemma iteratee_calls item h o :
  remote_calls (emitted (call_per_item w level text mk item h o)) = [mk item]
  /\ opts (call_per_item w level text mk item h o) = o.
Proof. rewrite iteratee_eq. cbn [emitted opts]. now calls. Qed.

(** Whatever the remote answers, the calls are the calls for the first
    items of the list, in the order of the list. *)
Lemma eachSeries_calls_prefix items h o :
  (exists k, remote_calls (emitted (eachSeries items (call_per_item w level text mk) h o))
             = firstn k (map mk items))
  /\ opts (eachSeries items (call_per_item w level text mk) h o) = o.
Proof.
  revert h. induction items as [|item rest IH]; intros h.
  - split; [now exists 0 | reflexivity].
  - simpl eachSeries. rewrite bind_eq.
    destruct (iteratee_calls item h o) as [Hcalls Hopts].
    destruct (outcome (call_per_item w level text mk item h o)) as [[e|]| | |];
      cbn [emitted opts]; rewrite ?remote_calls_app, ?Hcalls, ?Hopts;
      try (split; [now exists 1 | reflexivity]).
    destruct (IH (h ++ emitted (call_per_item w level text mk item h o))) as [[k Hk] Ho].
    split; [exists (S k); simpl; now rewrite Hk | exact Ho].
Qed.

(** When every call is answered without an error, there is a call for
    every item and the iteration ends without an error. *)
Lemma eachSeries_calls_all items h o :
  succeeds w ->
  remote_calls (emitted (eachSeries items (call_per_item w level text mk) h o)) = map mk items
  /\ outcome (eachSeries items (call_per_item w level text mk) h o) = Returned None.
Proof.
  intros Hok. revert h. induction items as [|item rest IH]; intros h.
  - split; reflexivity.
  - simpl eachSeries. rewrite bind_eq.
    destruct (iteratee_calls item h o) as [Hcalls Hopts].
    assert (Hout : outcome (call_per_item w level text mk item h o) = Returned None)
      by (rewrite iteratee_eq; apply Hok).
    rewrite Hout. cbn [emitted outcome].
    rewrite remote_calls_app, Hcalls, Hopts.
    destruct (IH (h ++ emitted (call_per_item w level text mk item h o))) as [Hrest Hdone].
    now rewrite Hrest, Hdone.
Qed.

(** An error on the first item ends the iteration: the items after it get
    no call. *)
Lemma eachSeries_calls_stop item rest e h o :
  (forall seen, answer (remote_reply w seen (mk item)) = Returned (Some e)) ->
  remote_calls (emitted (eachSeries (item :: rest) (call_per_item w level text mk) h o)) = [mk item]
  /\ outcome (eachSeries (item :: rest) (call_per_item w level text mk) h o) = Returned (Some e)
  /\ opts (eachSeries (item :: rest) (call_per_item w level text mk) h o) = o.
Proof.
  intros Herr. simpl eachSeries. rewrite bind_eq.
  destruct (iteratee_calls item h o) as [Hcalls Hopts].
  assert (Hout : outcome (call_per_item w level text mk item h o) = Returned (Some e))
    by (rewrite iteratee_eq; apply Herr).
  rewrite Hout. cbn [emitted outcome opts ret].
  now rewrite app_nil_r, Hcalls, Hopts.
Qed.

End OneCallPerItem.

(** The final callback of a list stage drops the error of the iteration. *)
Lemma list_stage A title (items : list A) it h o :
  remote_calls (emitted (list_stage_body title items it h o))
  = remote_calls (emitted (eachSeries items it (h ++ [Log Subhead [title]]) o))
  /\ outcome (list_stage_body title items it h o)
     = match outcome (eachSeries items it (h ++ [Log Subhead [title]]) o) with
       | Returned _ => Returned None
       | Stalled => Stalled
       | Exited => Exited
       | Threw e => Threw e
       end.
Proof.
  unfold list_stage_body. rewrite bind_log, bind_eq.
  destruct (outcome (eachSeries items it _ o)) as [x| | |];
    cbn [prepend emitted outcome]; rewrite ?bind_log; split; now calls.
Qed.

Lemma createFolderTask_eq w rel h o f folders :
  create o = Some (f :: folders) ->
  createFolderTask w rel h o
  = list_stage_body
      "Create folders on remote" (f :: folders)
      (call_per_item w Line (fun x => [" - " +++ x])
                     (fun x => CreateFolder (path rel +++ "/" +++ x))) h o.
Proof.
  intros H. unfold createFolderTask. now rewrite bind_get_options, H.
Qed.

Lemma makeDirectoriesWritableTask_eq w rel h o f folders :
  makeWritable o = Some (f :: folders) ->
  makeDirectoriesWritableTask w rel h o
  = list_stage_body
      "Make folders writable on remote" (f :: folders)
      (call_per_item w Line (fun x => [" - " +++ x])
                     (fun x => Chmod (path rel +++ "/" +++ x) "ugo+w")) h o.
Proof.
  intros H. unfold makeDirectoriesWritableTask. now rewrite bind_get_options, H.
Qed.

Lemma makeFilesExecutableTask_eq w rel h o f files :
  makeExecutable o = Some (f :: files) ->
  makeFilesExecutableTask w rel h o
  = list_stage_body
      "Make files executables on remote" (f :: files)
      (call_per_item
         w Line (fun x => [" - " +++ x])
         (fun x => Exec ("chmod ugo+x " +++ path rel +++ "/" +++ x) false))
      h o.
Proof.
  intros H. unfold makeFilesExecutableTask. now rewrite bind_get_options, H.
Qed.

(** The calls of a list stage, given the equation of its body. *)
Lemma list_stage_calls w A title (items : list A) text mk h o :
  (exists k,
      remote_calls
        (emitted (list_stage_body title items (call_per_item w Line text mk)
                                  h o))
      = firstn k (map mk items))
  /\ (succeeds w ->
      remote_calls
        (emitted (list_stage_body title items (call_per_item w Line text mk)
                                  h o))
      = map mk items
      /\ outcome (list_stage_body title items (call_per_item w Line text mk)
                                  h o)
         = Returned None).
Proof.
  destruct (list_stage title items (call_per_item w Line text mk) h o)
    as [Hcalls Hout].
  rewrite Hcalls, Hout. split.
  - apply eachSeries_calls_prefix.
  - intros Hok.
    destruct (@eachSeries_calls_all w A Line text mk items
                (h ++ [Log Subhead [title]]) o Hok) as [Hall Hdone].
    now rewrite Hall, Hdone.
Qed.

(** The three list stages make their calls item by item in the order of
    the list: one [createFolder], one [chmod ugo+w], one [chmod ugo+x]
    command for each item, on the path of the item under the release.
    Whatever the remote answers, the calls made are those for the first
    items of the list; when every call is answered without an error, every
    item gets its call and the stage calls [done]. *)
Theorem list_stages_call_in_order (w : World) (rel : Release)
        (h : list Action) (o : Options) :
  (forall folders,
      create o = Some folders ->
      (exists k,
          remote_calls (emitted (createFolderTask w rel h o))
          = firstn k (map (fun f => CreateFolder (path rel +++ "/" +++ f))
                          folders))
      /\ (succeeds w ->
          remote_calls (emitted (createFolderTask w rel h o))
          = map (fun f => CreateFolder (path rel +++ "/" +++ f)) folders
          /\ outcome (createFolderTask w rel h o) = Returned None))
  /\ (forall folders,
         makeWritable o = Some folders ->
         (exists k,
             remote_calls (emitted (makeDirectoriesWritableTask w rel h o))
             = firstn k (map (fun f => Chmod (path rel +++ "/" +++ f) "ugo+w")
                             folders))
         /\ (succeeds w ->
             remote_calls (emitted (makeDirectoriesWritableTask w rel h o))
             = map (fun f => Chmod (path rel +++ "/" +++ f) "ugo+w") folders
             /\ outcome (makeDirectoriesWritableTask w rel h o)
                = Returned None))
  /\ (forall files,
         makeExecutable o = Some files ->
         (exists k,
             remote_calls (emitted (makeFilesExecutableTask w rel h o))
             = firstn k
                 (map (fun f => Exec ("chmod ugo+x " +++ path rel +++ "/" +++ f)
                                     false) files))
         /\ (succeeds w ->
             remote_calls (emitted (makeFilesExecutableTask w rel h o))
             = map (fun f => Exec ("chmod ugo+x " +++ path rel +++ "/" +++ f)
                                  false) files
             /\ outcome (makeFilesExecutableTask w rel h o) = Returned None)).
Proof.
  split; [|split].
  - intros [|f folders] H.
    + rewrite createFolderTask_skips by auto.
      split; [now exists 0 | now split].
    + rewrite createFolderTask_eq with (f := f) (folders := folders) by exact H.
      apply list_stage_calls.
  - intros [|f folders] H.
    + rewrite makeDirectoriesWritableTask_skips by auto.
      split; [now exists 0 | now split].
    + rewrite makeDirectoriesWritableTask_eq with (f := f) (folders := folders)
        by exact H.
      apply list_stage_calls.
  - intros [|f files] H.
    + rewrite makeFilesExecutableTask_skips by auto.
      split; [now exists 0 | now split].
    + rewrite makeFilesExecutableTask_eq with (f := f) (files := files)
        by exact H.
      apply (list_stage_calls
               w "Make files executables on remote" (f :: files)
               (fun x => [" - " +++ x])
               (fun x => Exec ("chmod ugo+x " +++ path rel +++ "/" +++ x) false)).
Qed.

Lemma obliging_succeeds : succeeds obliging.
Proof. intros h c. reflexivity. Qed.

Lemma list_stages_call_in_order_witness :
  remote_calls (emitted (createFolderTask obliging sample_release []
                                          lists_options))
  = [CreateFolder "/var/www/releases/2026-01-02-03-04-05/var/cache";
     CreateFolder "/var/www/releases/2026-01-02-03-04-05/var/log"]
  /\ remote_calls (emitted (makeDirectoriesWritableTask
                              obliging sample_release [] lists_options))
     = [Chmod "/var/www/releases/2026-01-02-03-04-05/var/cache" "ugo+w"]
  /\ remote_calls (emitted (makeFilesExecutableTask
                              obliging sample_release [] lists_options))
     = [Exec "chmod ugo+x /var/www/releases/2026-01-02-03-04-05/bin/console"
             false;
        Exec "chmod ugo+x /var/www/releases/2026-01-02-03-04-05/bin/worker"
             false].
Proof.
  destruct (list_stages_call_in_order obliging sample_release []
                                      lists_options)
    as (Hcreate & Hwritable & Hexecutable).
  split; [|split].
  - exact (proj1 (proj2 (Hcreate ["var/cache"; "var/log"] eq_refl)
                        obliging_succeeds)).
  - exact (proj1 (proj2 (Hwritable ["var/cache"] eq_refl) obliging_succeeds)).
  - exact (proj1 (proj2 (Hexecutable ["bin/console"; "bin/worker"] eq_refl)
                        obliging_succeeds)).
Defined.

Lemma list_stage_stops w A title (item : A) rest text mk e h o :
  (forall seen, answer (remote_reply w seen (mk item)) = Returned (Some e)) ->
  remote_calls
    (emitted (list_stage_body title (item :: rest)
                              (call_per_item w Line text mk) h o))
  = [mk item]
  /\ outcome (list_stage_body title (item :: rest)
                              (call_per_item w Line text mk) h o)
     = Returned None.
Proof.
  intros Herr.
  destruct (list_stage title (item :: rest) (call_per_item w Line text mk) h o)
    as [Hcalls Hout].
  destruct (@eachSeries_calls_stop w A Line text mk item rest e
              (h ++ [Log Subhead [title]]) o Herr) as (Hone & Herror & _).
  now rewrite Hcalls, Hout, Hone, Herror.
Qed.

(** An item that fails ends a list stage quietly: when the remote answers
    the call for the first item with an error, the items after it get no
    call, and the stage still calls [done] without an error, so the
    pipeline goes on as after a success. *)
Theorem failed_item_skips_the_rest (w : World) (rel : Release)
        (h : list Action) (o : Options) (e : string) :
  (forall f rest,
      create o = Some (f :: rest) ->
      (forall seen,
          answer (remote_reply w seen (CreateFolder (path rel +++ "/" +++ f)))
          = Returned (Some e)) ->
      remote_calls (emitted (createFolderTask w rel h o))
      = [CreateFolder (path rel +++ "/" +++ f)]
      /\ outcome (createFolderTask w rel h o) = Returned None)
  /\ (forall f rest,
         makeWritable o = Some (f :: rest) ->
         (forall seen,
             answer (remote_reply w seen
                                  (Chmod (path rel +++ "/" +++ f) "ugo+w"))
             = Returned (Some e)) ->
         remote_calls (emitted (makeDirectoriesWritableTask w rel h o))
         = [Chmod (path rel +++ "/" +++ f) "ugo+w"]
         /\ outcome (makeDirectoriesWritableTask w rel h o) = Returned None)
  /\ (forall f rest,
         makeExecutable o = Some (f :: rest) ->
         (forall seen,
             answer (remote_reply
                       w seen
                       (Exec ("chmod ugo+x " +++ path rel +++ "/" +++ f) false))
             = Returned (Some e)) ->
         remote_calls (emitted (makeFilesExecutableTask w rel h o))
         = [Exec ("chmod ugo+x " +++ path rel +++ "/" +++ f) false]
         /\ outcome (makeFilesExecutableTask w rel h o) = Returned None).
Proof.
  split; [|split]; intros f rest H Herr.
  - rewrite createFolderTask_eq with (f := f) (folders := rest) by exact H.
    apply (@list_stage_stops
             w string "Create folders on remote" f rest
             (fun x => [" - " +++ x])
             (fun x => CreateFolder (path rel +++ "/" +++ x)) e h o Herr).
  - rewrite makeDirectoriesWritableTask_eq with (f := f) (folders := rest)
      by exact H.
    apply (@list_stage_stops
             w string "Make folders writable on remote" f rest
             (fun x => [" - " +++ x])
             (fun x => Chmod (path rel +++ "/" +++ x) "ugo+w") e h o Herr).
  - rewrite makeFilesExecutableTask_eq with (f := f) (files := rest)
      by exact H.
    apply (@list_stage_stops
             w string "Make files executables on remote" f rest
             (fun x => [" - " +++ x])
             (fun x => Exec ("chmod ugo+x " +++ path rel +++ "/" +++ x) false)
             e h o Herr).
Qed.

Lemma failed_item_skips_the_rest_witness :
  (remote_calls (emitted (createFolderTask calls_failing sample_release []
                                           lists_options))
   = [CreateFolder "/var/www/releases/2026-01-02-03-04-05/var/cache"]
   /\ outcome (createFolderTask calls_failing sample_release [] lists_options)
      = Returned None)
  /\ (remote_calls (emitted (makeDirectoriesWritableTask
                               calls_failing sample_release [] lists_options))
      = [Chmod "/var/www/releases/2026-01-02-03-04-05/var/cache" "ugo+w"]
      /\ outcome (makeDirectoriesWritableTask calls_failing sample_release []
                                              lists_options)
         = Returned None)
  /\ (remote_calls (emitted (makeFilesExecutableTask
                               calls_failing sample_release [] lists_options))
      = [Exec "chmod ugo+x /var/www/releases/2026-01-02-03-04-05/bin/console"
              false]
      /\ outcome (makeFilesExecutableTask calls_failing sample_release []
                                          lists_options)
         = Returned None).
Proof.
  destruct (failed_item_skips_the_rest
              calls_failing sample_release [] lists_options "EACCES")
    as (Hcreate & Hwritable & Hexecutable).
  split; [|split].
  - exact (Hcreate "var/cache" ["var/log"] eq_refl (fun seen => eq_refl)).
  - exact (Hwritable "var/cache" [] eq_refl (fun seen => eq_refl)).
  - exact (Hexecutable "bin/console" ["bin/worker"] eq_refl
                       (fun seen => eq_refl)).
Defined.

(** *** Middleware commands *)

Lemma run_commands_eq w c commands h o :
  run_commands w (Some (c :: commands)) h o
  = (eachSeries (c :: commands)
                (call_per_item w Subhead
                               (fun x => ["Execute on remote : " +++ x])
                               (fun x => Exec x true)) ;;
     log Ok ["Done"] ;; ret None) h o.
Proof. reflexivity. Qed.

Lemma run_commands_calls w commands h o :
  (exists k,
      remote_calls (emitted (run_commands w (Some commands) h o))
      = firstn k (map (fun c => Exec c true) commands))
  /\ (succeeds w ->
      remote_calls (emitted (run_commands w (Some commands) h o))
      = map (fun c => Exec c true) commands
      /\ outcome (run_commands w (Some commands) h o) = Returned None).
Proof.
  destruct commands as [|c commands].
  - split; [now exists 0 | now split].
  - rewrite run_commands_eq, bind_eq.
    destruct (@eachSeries_calls_prefix
                w string Subhead (fun x => ["Execute on remote : " +++ x])
                (fun x => Exec x true) (c :: commands) h o) as [[k Hk] _].
    split.
    + exists k.
      destruct (outcome (eachSeries _ _ h o)) as [x| | |];
        cbn [emitted]; rewrite ?bind_log; calls; exact Hk.
    + intros Hok.
      destruct (@eachSeries_calls_all
                  w string Subhead (fun x => ["Execute on remote : " +++ x])
                  (fun x => Exec x true) (c :: commands) h o Hok)
        as [Hall Hdone].
      rewrite Hdone. cbn [emitted outcome]. rewrite bind_log.
      split; [calls; exact Hall | reflexivity].
Qed.

(** The commands of a middleware option are executed one after the other in
    the order of the list, each with its output shown; the calls made are
    always those for the first commands of the list, and all of them when
    every call is answered without an error.  An option that is a function
    is called once, and after the calls the function made through the
    context the stage runs the list the function returned exactly as it
    runs a list given in the options. *)
Theorem middleware_commands_in_order (w : World) (p : Phase)
        (h : list Action) (o : Options) :
  (forall commands,
      (exists k,
          remote_calls
            (emitted (middlewareCallbackExecute w p (MiddlewareList commands)
                                                h o))
          = firstn k (map (fun c => Exec c true) commands))
      /\ (succeeds w ->
          remote_calls
            (emitted (middlewareCallbackExecute w p (MiddlewareList commands)
                                                h o))
          = map (fun c => Exec c true) commands
          /\ outcome (middlewareCallbackExecute w p (MiddlewareList commands)
                                                h o)
             = Returned None))
  /\ (forall o' commands,
         middleware_reply w p (h ++ [Resolve p]) o = (o', Returned commands) ->
         let called :=
           Resolve p :: performed w o (h ++ [Resolve p])
                                  (middleware_calls w p (h ++ [Resolve p]) o) in
         middlewareCallbackExecute w p MiddlewareFunction h o
         = prepend called
                   (middlewareCallbackExecute
                      w p
                      (MiddlewareList match commands with
                                      | Some list => list
                                      | None => []
                                      end)
                      (h ++ called) o')).
Proof.
  split.
  - intros commands. apply run_commands_calls.
  - intros o' commands Hreply called. subst called.
    rewrite middleware_function_eq. cbn zeta. rewrite Hreply. cbn [fst snd].
    now destruct commands as [[|c cs]|].
Qed.

Lemma middleware_commands_in_order_witness :
  remote_calls
    (emitted (middlewareCallbackExecute
                obliging BeforeLink (MiddlewareList ["bin/migrate"]) []
                archive_options))
  = [Exec "bin/migrate" true]
  /\ remote_calls
       (emitted (middlewareCallbackExecute commanding AfterDeploy
                                           MiddlewareFunction []
                                           archive_options))
     = [Exec "bin/migrate" true; Exec "bin/warm-cache" true].
Proof.
  split.
  - exact (proj1 (proj2 (proj1 (middleware_commands_in_order
                                  obliging BeforeLink [] archive_options)
                               ["bin/migrate"])
                        obliging_succeeds)).
  - rewrite (proj2 (middleware_commands_in_order
                      commanding AfterDeploy [] archive_options)
                   archive_options (Some ["bin/migrate"; "bin/warm-cache"])
                   eq_refl).
    reflexivity.
Defined.

(** A middleware function that runs a command through the deprecated
    [execRemote] before it returns: the call is the function's, and its
    output is shown or not as the function says. *)
Example middleware_function_calls_through_the_context :
  middlewareCallbackExecute meddling BeforeLink MiddlewareFunction []
                            archive_options
  = mkRes [Resolve BeforeLink; Call (Exec "uptime" false)] archive_options
          (Returned None).
Proof. reflexivity. Qed.

(** *** The archive: compress, upload, delete *)

(** In archive mode [compressReleaseTask] calls the archiver once, with the
    type, name, local path and exclusions of the options, and makes no
    remote call.  It calls [done] when the archiver succeeds; when the
    archiver reports an error the task logs and throws that error, so the
    run ends there. *)
Theorem compress_outcomes (w : World) (h : list Action) (o : Options) :
  mode o = "archive" ->
  exists seen,
    filter (fun a => negb (match a with Log _ _ => true | _ => false end))
           (emitted (compressReleaseTask w h o))
    = [Compress (archiveType o) (archiveName o) (localPath o) (exclude o)]
    /\ opts (compressReleaseTask w h o) = o
    /\ outcome (compressReleaseTask w h o)
       = match compress_reply w seen with
         | Compressed _ => Returned None
         | CompressFailed err => Threw err
         | CompressPending => Stalled
         end.
Proof.
  intros Hmode. unfold compressReleaseTask.
  rewrite bind_get_options, Hmode. cbn [String.eqb Ascii.eqb Bool.eqb negb].
  rewrite !bind_log, bind_emit, bind_get_history.
  match goal with
  | |- context [compress_reply w ?hh] =>
      exists hh; destruct (compress_reply w hh) as [size|err|]
  end; rewrite ?bind_log; repeat split.
Qed.

Lemma compress_outcomes_witness :
  exists seen,
    filter (fun a => negb (match a with Log _ _ => true | _ => false end))
           (emitted (compressReleaseTask obliging [] archive_options))
    = [Compress "tar" "release.tar.gz" "dist/" []]
    /\ opts (compressReleaseTask obliging [] archive_options) = archive_options
    /\ outcome (compressReleaseTask obliging [] archive_options)
       = match compress_reply obliging seen with
         | Compressed _ => Returned None
         | CompressFailed err => Threw err
         | CompressPending => Stalled
         end.
Proof.
  exact (@compress_outcomes obliging [] archive_options eq_refl).
Defined.

Lemma bind_remote A w c (k : option string -> M A) h o :
  bind (remote w c) k h o
  = match answer (remote_reply w (h ++ [Call c]) c) with
    | Returned e =>
        prepend (Call c :: notices o (notes (remote_reply w (h ++ [Call c]) c)))
                (k e (h ++ Call c
                        :: notices o (notes (remote_reply w (h ++ [Call c]) c)))
                   o)
    | Stalled =>
        mkRes (Call c :: notices o (notes (remote_reply w (h ++ [Call c]) c)))
              o Stalled
    | Exited =>
        mkRes (Call c :: notices o (notes (remote_reply w (h ++ [Call c]) c)))
              o Exited
    | Threw e =>
        mkRes (Call c :: notices o (notes (remote_reply w (h ++ [Call c]) c)))
              o (Threw e)
    end.
Proof.
  destruct (answer (remote_reply w (h ++ [Call c]) c)) as [e| | |] eqn:He.
  - now apply bind_remote_answered.
  - unfold bind. now rewrite remote_eq, He.
  - unfold bind. now rewrite remote_eq, He.
  - unfold bind. now rewrite remote_eq, He.
Qed.

(** In archive mode [uploadArchiveTask] makes the one call [upload], of the
    archive into the release path.  It calls [done] only when the upload is
    answered without an error; an upload error is logged and the task
    returns without calling [done], so the series never goes on. *)
Theorem upload_outcomes (w : World) (rel : Release)
        (h : list Action) (o : Options) :
  mode o = "archive" ->
  exists seen,
    remote_calls (emitted (uploadArchiveTask w rel h o))
    = [Upload (archiveName o) (path rel)]
    /\ opts (uploadArchiveTask w rel h o) = o
    /\ outcome (uploadArchiveTask w rel h o)
       = match answer (remote_reply w seen (Upload (archiveName o) (path rel)))
         with
         | Returned None => Returned None
         | Returned (Some _) => Stalled
         | other => other
         end
    /\ forall e,
        answer (remote_reply w seen (Upload (archiveName o) (path rel)))
        = Returned (Some e) ->
        In (Log Error [e]) (emitted (uploadArchiveTask w rel h o)).
Proof.
  intros Hmode. unfold uploadArchiveTask.
  rewrite bind_get_options, Hmode. cbn [String.eqb Ascii.eqb Bool.eqb negb].
  rewrite !bind_log, bind_remote.
  match goal with
  | |- context [remote_reply w ?hh ?c] =>
      exists hh; destruct (answer (remote_reply w hh c)) as [[e|]| | |]
  end; rewrite ?bind_log; cbn [prepend emitted opts outcome finish ret];
    (split; [now calls|]); (split; [reflexivity|]);
    (split; [reflexivity|]); intros e'; try discriminate.
  intros He. injection He as ->.
  simpl. right. right. right. rewrite in_app_iff. right. simpl. auto.
Qed.

Lemma upload_outcomes_witness :
  exists seen,
    remote_calls (emitted (uploadArchiveTask upload_failing sample_release []
                                             archive_options))
    = [Upload "release.tar.gz" "/var/www/releases/2026-01-02-03-04-05"]
    /\ opts (uploadArchiveTask upload_failing sample_release []
                               archive_options)
       = archive_options
    /\ outcome (uploadArchiveTask upload_failing sample_release []
                                  archive_options)
       = match answer (remote_reply
                         upload_failing seen
                         (Upload "release.tar.gz"
                                 "/var/www/releases/2026-01-02-03-04-05"))
         with
         | Returned None => Returned None
         | Returned (Some _) => Stalled
         | other => other
         end
    /\ forall e,
        answer (remote_reply upload_failing seen
                             (Upload "release.tar.gz"
                                     "/var/www/releases/2026-01-02-03-04-05"))
        = Returned (Some e) ->
        In (Log Error [e])
           (emitted (uploadArchiveTask upload_failing sample_release []
                                       archive_options)).
Proof.
  exact (@upload_outcomes upload_failing sample_release [] archive_options
                          eq_refl).
Defined.

(** [deleteLocalArchiveTask] never makes a remote call and leaves the
    options alone.  Unless the mode is [archive] and
    [deleteLocalArchiveAfterDeployment] is set, it does nothing and calls
    [done].  Otherwise it calls [fs.unlink] on the archive of the options,
    without a callback: when the runtime starts the removal the task
    writes its closing line and calls [done]; when the runtime throws for
    want of a callback the error leaves the task, no file is removed, the
    closing line is not written and [done] is not called. *)
Theorem delete_local_archive_only_when_asked (w : World) (h : list Action)
        (o : Options) :
  opts (deleteLocalArchiveTask w h o) = o
  /\ remote_calls (emitted (deleteLocalArchiveTask w h o)) = []
  /\ (forall file,
         In (Unlink file) (emitted (deleteLocalArchiveTask w h o)) <->
         file = archiveName o /\ mode o = "archive"
         /\ deleteLocalArchiveAfterDeployment o = true
         /\ fs_unlink w (archiveName o) = RemovalStarted)
  /\ (mode o <> "archive" \/ deleteLocalArchiveAfterDeployment o = false ->
      deleteLocalArchiveTask w h o = mkRes [] o (Returned None))
  /\ (mode o = "archive" ->
      deleteLocalArchiveAfterDeployment o = true ->
      deleteLocalArchiveTask w h o
      = match fs_unlink w (archiveName o) with
        | RemovalStarted =>
            mkRes [Log Subhead ["Delete local archive"];
                   Unlink (archiveName o); Log Ok ["Done"]]
                  o (Returned None)
        | CallbackMissing error =>
            mkRes [Log Subhead ["Delete local archive"]] o (Threw error)
        end).
Proof.
  unfold deleteLocalArchiveTask. rewrite bind_get_options.
  destruct (String.eqb_spec (mode o) "archive") as [Hmode|Hmode];
    destruct (deleteLocalArchiveAfterDeployment o) eqn:Hflag;
    cbn [negb orb]; rewrite ?bind_log.
  2,3,4: (split; [reflexivity|]); (split; [reflexivity|]);
    (split; [intros file; simpl; intuition congruence|]);
    (split; [reflexivity|]); congruence.
  destruct (fs_unlink w (archiveName o)) as [|error] eqn:Hunlink;
    rewrite ?bind_emit, ?bind_log; unfold bind, finish, prepend; simpl;
    (split; [reflexivity|]); (split; [reflexivity|]);
    (split; [intros file; intuition congruence|]);
    (split; [intros [Hne|Hne]; congruence | reflexivity]).
Qed.

Lemma delete_local_archive_only_when_asked_witness :
  deleteLocalArchiveTask obliging [] synchronize_options
  = mkRes [] synchronize_options (Returned None)
  /\ deleteLocalArchiveTask obliging [] archive_options
     = mkRes [Log Subhead ["Delete local archive"]] archive_options
             (Threw "TypeError: Callback must be a function")
  /\ deleteLocalArchiveTask legacy_node [] archive_options
     = mkRes [Log Subhead ["Delete local archive"];
              Unlink "release.tar.gz"; Log Ok ["Done"]]
             archive_options (Returned None).
Proof.
  destruct (delete_local_archive_only_when_asked obliging []
                                                 synchronize_options)
    as (_ & _ & _ & Hskip & _).
  destruct (delete_local_archive_only_when_asked obliging [] archive_options)
    as (_ & _ & _ & _ & Hthrows).
  destruct (delete_local_archive_only_when_asked legacy_node []
                                                 archive_options)
    as (_ & _ & _ & _ & Hremoves).
  split; [apply Hskip; left; discriminate|].
  split; [exact (Hthrows eq_refl eq_refl) | exact (Hremoves eq_refl eq_refl)].
Defined.

(** *** Stages of one remote call *)

(** Runs a stage of logs around one remote call on every answer. *)
Ltac one_call :=
  rewrite ?bind_get_options, ?bind_log, ?bind_remote;
  match goal with
  | |- context [remote_reply ?w ?hh ?c] =>
      exists hh; destruct (answer (remote_reply w hh c)) as [e| | |]
  end;
  rewrite ?bind_log;
  cbn [prepend emitted opts outcome ret whatever_the_answer];
  (split; [now calls | reflexivity]).

(** The stages of one remote call make that call once, whatever the
    options: the release folder is created at the release path, the current
    symlink is pointed at [releasesFolder/tag] from the join of
    [deployPath] and [currentReleaseLink], and [removeReleaseTask] deletes
    [deployPath] itself.  Their callbacks take no argument: a call that is
    answered counts as done, with an error or without, and an error of the
    remote does not stop the pipeline. *)
Theorem answered_call_counts_as_done (w : World) (rel : Release)
        (h : list Action) (o : Options) :
  (exists seen,
      remote_calls (emitted (createReleaseFolderOnRemoteTask w rel h o))
      = [CreateFolder (path rel)]
      /\ outcome (createReleaseFolderOnRemoteTask w rel h o)
         = whatever_the_answer
             (answer (remote_reply w seen (CreateFolder (path rel)))))
  /\ (exists seen,
         remote_calls (emitted (updateCurrentSymbolicLinkOnRemoteTask w rel h o))
         = [CreateSymboliclink
              (releasesFolder o +++ "/" +++ tag rel)
              (path_posix_join [deployPath o; currentReleaseLink o])]
         /\ outcome (updateCurrentSymbolicLinkOnRemoteTask w rel h o)
            = whatever_the_answer
                (answer (remote_reply
                           w seen
                           (CreateSymboliclink
                              (releasesFolder o +++ "/" +++ tag rel)
                              (path_posix_join
                                 [deployPath o; currentReleaseLink o])))))
  /\ (exists seen,
         remote_calls (emitted (removeReleaseTask w h o))
         = [Exec ("rm -rf " +++ deployPath o) false]
         /\ outcome (removeReleaseTask w h o)
            = whatever_the_answer
                (answer (remote_reply
                           w seen (Exec ("rm -rf " +++ deployPath o) false)))).
Proof.
  split; [|split].
  - unfold createReleaseFolderOnRemoteTask. one_call.
  - unfold updateCurrentSymbolicLinkOnRemoteTask. one_call.
  - unfold removeReleaseTask. one_call.
Qed.

(** In synchronize mode [uploadReleaseTask] makes the one call
    [synchronize]: from the local path to the release path, with the
    synchronized folder [deployPath + '/' + synchronizedFolder], which is a
    plain concatenation and not a normalized join.  An answered call counts
    as done. *)
Theorem synchronize_outcomes (w : World) (rel : Release)
        (h : list Action) (o : Options) :
  mode o = "synchronize" ->
  exists seen,
    remote_calls (emitted (uploadReleaseTask w rel h o))
    = [Synchronize (localPath o) (path rel)
                   (deployPath o +++ "/" +++ synchronizedFolder o)]
    /\ outcome (uploadReleaseTask w rel h o)
       = whatever_the_answer
           (answer (remote_reply
                      w seen
                      (Synchronize (localPath o) (path rel)
                                   (deployPath o +++ "/"
                                      +++ synchronizedFolder o)))).
Proof.
  intros Hmode. unfold uploadReleaseTask.
  rewrite bind_get_options, Hmode. cbn [String.eqb Ascii.eqb Bool.eqb negb].
  one_call.
Qed.

Lemma synchronize_outcomes_witness :
  exists seen,
    remote_calls (emitted (uploadReleaseTask obliging sample_release []
                                             synchronize_options))
    = [Synchronize "dist/" "/var/www/releases/2026-01-02-03-04-05"
                   "/var/www/synchronized"]
    /\ outcome (uploadReleaseTask obliging sample_release []
                                  synchronize_options)
       = whatever_the_answer
           (answer (remote_reply
                      obliging seen
                      (Synchronize "dist/"
                                   "/var/www/releases/2026-01-02-03-04-05"
                                   "/var/www/synchronized"))).
Proof.
  exact (@synchronize_outcomes obliging sample_release [] synchronize_options
                               eq_refl).
Defined.

(** *** Removing the release *)




Lemma removeReleaseTask_calls w h o :
  remote_calls (emitted (removeReleaseTask w h o))
  = [Exec ("rm -rf " +++ deployPath o) false]
  /\ opts (removeReleaseTask w h o) = o.
Proof.
  unfold removeReleaseTask. rewrite bind_get_options, bind_log, bind_remote.
  destruct (answer _) as [e| | |]; rewrite ?bind_log;
    cbn [prepend emitted opts outcome ret]; split; trivial; now calls.
Qed.

(** The remote calls of [removeRelease] are [connect], then the recursive
    deletion of [deployPath] - the whole deploy root, with the shared
    folder and every release - then [close]; a run makes an initial part of
    these three calls, and all three when its three stages started. *)
Theorem remove_release_calls (w : World) (rel : Release) (done : Callback)
        (h : list Action) (o : Options) :
  (exists k,
      calls_of (events (removeRelease w rel done h o))
      = firstn (S k) [Connect; Exec ("rm -rf " +++ deployPath o) false; Close])
  /\ (started (events (removeRelease w rel done h o)) = removeTasks ->
      calls_of (events (removeRelease w rel done h o))
      = [Connect; Exec ("rm -rf " +++ deployPath o) false; Close]).
Proof.
  unfold removeRelease, calls_of, removeTasks.
  rewrite finally_actions, finally_started.
  rewrite series_actions, series_started, remote_calls_app.
  change (run_task w rel ConnectToRemote) with (connectToRemoteTask w).
  destruct (connect_task w h o) as (seen & Hconnect & Hopts & _).
  rewrite Hconnect, Hopts.
  destruct (outcome (connectToRemoteTask w h o)) as [[e|]| | |];
    try (split; [now exists 0 | discriminate]).
  rewrite series_actions, series_started, remote_calls_app.
  change (run_task w rel RemoveRelease) with (removeReleaseTask w).
  destruct (removeReleaseTask_calls w (h ++ emitted (connectToRemoteTask w h o))
                                    o) as [Hremove Hopts'].
  rewrite Hremove, Hopts'.
  destruct (outcome (removeReleaseTask w _ o)) as [[e|]| | |];
    try (split; [now exists 1 | discriminate]).
  rewrite series_actions, remote_calls_app.
  change (run_task w rel CloseConnection) with (closeConnectionTask w).
  rewrite close_calls.
  split; [exists 2 | intros _];
    now destruct (outcome (closeConnectionTask w _ o)) as [[e|]| | |].
Qed.

Lemma remove_release_calls_witness :
  calls_of (events (removeRelease obliging sample_release Caller []
                                  archive_options))
  = [Connect; Exec "rm -rf /var/www" false; Close].
Proof.
  apply (proj2 (remove_release_calls obliging sample_release Caller []
                                     archive_options)).
  vm_compute. reflexivity.
Defined.

(** *** The hooks *)

Lemma hooks_of_app a b : hooks_of (a ++ b) = hooks_of a ++ hooks_of b.
Proof. unfold hooks_of. apply flat_map_app. Qed.

Lemma no_hook_no_hooks acts :
  forallb no_hook acts = true -> hooks_of acts = [].
Proof.
  induction acts as [|a acts IH]; [reflexivity|].
  simpl. intros H. apply andb_prop in H. destruct H as [Ha Hrest].
  destruct a; try discriminate; now apply IH.
Qed.

Lemma context_no_hook w : user_calls_pass no_hook w.
Proof.
  apply context_calls_pass; [reflexivity|]. intros c. now destruct c.
Qed.

Lemma run_hook_hooks w hk h o : hooks_of (emitted (run_hook w hk h o)) = [hk].
Proof.
  rewrite run_hook_eq. cbn [emitted].
  change (Hook hk :: ?l) with ([Hook hk] ++ l).
  rewrite hooks_of_app, (@no_hook_no_hooks (performed _ _ _ _)); trivial.
  apply performed_pass; [reflexivity|]. apply context_no_hook.
Qed.

Lemma task_hooks w rel t h o :
  hooks_of (emitted (run_task w rel t h o)) = hook_of_task t.
Proof.
  pose proof (context_no_hook w) as Huser.
  destruct t; cbn [hook_of_task];
    try (unfold run_task, onBeforeDeployTask, onBeforeLinkTask,
           onAfterDeployTask; now apply run_hook_hooks);
    apply no_hook_no_hooks; revert h o;
    match goal with
    | |- forall h o, forallb ?p (emitted (?m h o)) = true =>
        change (emits_only p m)
    end;
    unfold_tasks;
    try (apply emits_bind; [apply emits_get_options | intro];
         now apply emits_middleware);
    now emits.
Qed.

Lemma series_hooks w rel tasks h o :
  exists n,
    hooks_of (actions_of (events (series w rel tasks h o)))
    = flat_map hook_of_task (firstn n tasks).
Proof.
  revert h o. induction tasks as [|t rest IH]; intros h o; [now exists 0|].
  rewrite series_actions, hooks_of_app, task_hooks.
  destruct (outcome (run_task w rel t h o)) as [[e|]| | |];
    try (exists 1; simpl; now rewrite !app_nil_r).
  destruct (IH (h ++ emitted (run_task w rel t h o))
               (opts (run_task w rel t h o))) as [n Hn].
  exists (S n). simpl. now rewrite Hn.
Qed.

Lemma deploy_hooks_prefix n :
  exists k,
    flat_map hook_of_task (firstn n deployTasks)
    = firstn k [OnBeforeDeploy; OnBeforeLink; OnAfterDeploy].
Proof.
  unfold deployTasks.
  do 20 (destruct n as [|n];
         [first [now exists 0 | now exists 1 | now exists 2 | now exists 3]|]).
  exists 3. destruct n; reflexivity.
Qed.

(** Every hook is called at most once in a run of [deployRelease], and the
    hooks are called in the order before-deploy, before-link, after-deploy:
    the hooks called are an initial part of that list.  [removeRelease]
    calls no hook. *)
Theorem hooks_once_and_in_order (w : World) (rel : Release) (done : Callback)
        (h : list Action) (o : Options) :
  (exists k,
      hooks_of (actions_of (events (deployRelease w rel done h o)))
      = firstn k [OnBeforeDeploy; OnBeforeLink; OnAfterDeploy])
  /\ hooks_of (actions_of (events (removeRelease w rel done h o))) = [].
Proof.
  unfold deployRelease, removeRelease. rewrite !finally_actions. split.
  - destruct (series_hooks w rel deployTasks h o) as [n ->].
    apply deploy_hooks_prefix.
  - destruct (series_hooks w rel removeTasks h o) as [n ->].
    unfold removeTasks. do 3 (destruct n as [|n]; [reflexivity|]).
    destruct n; reflexivity.
Qed.

(** *** Shared symlinks, whatever the remote answers *)

Lemma shareItem_prefix w rel o item h o0 :
  (outcome (shareItem w rel o item h o0) = Returned None
   /\ opts (shareItem w rel o item h o0) = o0
   /\ remote_calls (emitted (shareItem w rel o item h o0))
      = expected_share_calls w rel o item)
  \/ ((forall x, outcome (shareItem w rel o item h o0) <> Returned x)
      /\ exists rest,
          remote_calls (emitted (shareItem w rel o item h o0)) ++ rest
          = expected_share_calls w rel o item).
Proof.
  destruct item as [folder configValue].
  unfold shareItem, expected_share_calls, reversePath, sharedLinkTarget,
    linkPath_of.
  destruct (getReversePath w (symlinkName_of configValue))
    as [upwardPath|error];
    [|right; split; [discriminate | now exists []]].
  rewrite bind_ret, bind_log, bind_remote.
  destruct (answer (remote_reply w _ _)) as [e| | |];
    try (right; cbn [prepend emitted outcome]; split; [discriminate|];
         calls; eexists; reflexivity).
  destruct configValue as [n | s [[|c m]|]]; cbn [mode_of truthy_mode];
    try (left; cbn [prepend emitted opts outcome ret]; now calls).
  rewrite bind_log, bind_remote.
  destruct (answer (remote_reply w _ (Chmod _ _))) as [e'| | |];
    try (right; cbn [prepend emitted outcome]; split; [discriminate|];
         calls; exists []; reflexivity).
  left. cbn [prepend emitted opts outcome ret]. now calls.
Qed.

Lemma eachSeries_share_prefix w rel o entries h o0 :
  exists rest,
    remote_calls (emitted (eachSeries entries (shareItem w rel o) h o0)) ++ rest
    = flat_map (expected_share_calls w rel o) entries.
Proof.
  revert h. induction entries as [|item entries IH]; intros h.
  - now exists [].
  - simpl eachSeries. rewrite bind_eq.
    destruct (shareItem_prefix w rel o item h o0)
      as [(Hout & Hopts & Hcalls) | (Hnot & rest & Hcalls)].
    + rewrite Hout. cbn [emitted]. rewrite Hopts, remote_calls_app, Hcalls.
      destruct (IH (h ++ emitted (shareItem w rel o item h o0))) as [rest Hrest].
      exists rest. simpl flat_map. now rewrite <- app_assoc, Hrest.
    + exists (rest ++ flat_map (expected_share_calls w rel o) entries).
      simpl flat_map. rewrite <- Hcalls.
      destruct (outcome (shareItem w rel o item h o0)) as [x| | |];
        [now elim (Hnot x) | | |]; cbn [emitted]; now rewrite <- app_assoc.
Qed.

(** Whatever the remote answers, and whether or not it answers, the calls
    of the shared-symlink stage are an initial part of the expected calls:
    entry by entry the symlink, then the [chmod] of an entry with a
    non-empty mode.  So no [chmod] is ever made for an entry without a mode
    or before the symlink of its entry, and no entry is reached before the
    calls of the entries before it were answered. *)
Theorem share_calls_never_stray (w : World) (rel : Release)
        (h : list Action) (o : Options)
        (entries : list (string * ShareConfig)) :
  share o = Some entries ->
  exists rest,
    remote_calls (emitted (updateSharedSymbolicLinkOnRemoteTask w rel h o))
      ++ rest
    = flat_map (expected_share_calls w rel o) entries.
Proof.
  intros Hshare. unfold updateSharedSymbolicLinkOnRemoteTask.
  rewrite bind_get_options, Hshare.
  destruct (length_equals_zero w entries); [now eexists|].
  rewrite bind_log, bind_eq.
  destruct (eachSeries_share_prefix
              w rel o entries
              (h ++ [Log Subhead ["Update shared symlink on remote"]]) o)
    as [rest Hrest].
  exists rest. rewrite <- Hrest.
  destruct (outcome (eachSeries _ _ _ o)) as [x| | |];
    cbn [emitted]; rewrite ?bind_log; now calls.
Qed.

Lemma share_calls_never_stray_witness :
  exists rest,
    remote_calls (emitted (updateSharedSymbolicLinkOnRemoteTask
                             silent sample_release [] shared_options))
      ++ rest
    = flat_map (expected_share_calls silent sample_release shared_options)
               [("logs", ShareName "logs");
                ("upload", ShareDescriptor (Some "app/upload") (Some "777"));
                ("cache", ShareDescriptor (Some "cache") (Some ""));
                ("tmp", ShareDescriptor (Some "tmp") None)].
Proof.
  exact (@share_calls_never_stray silent sample_release [] shared_options
                                  _ eq_refl).
Defined.

(** With a remote that never answers, only the first symlink is asked for. *)
Example share_calls_when_silent :
  remote_calls (emitted (updateSharedSymbolicLinkOnRemoteTask
                           silent sample_release [] shared_options))
  = [CreateSymboliclink "/../shared/logs"
                        "/var/www/releases/2026-01-02-03-04-05/logs"].
Proof. vm_compute. reflexivity. Qed.

(** *** When every collaborator obliges *)

Lemma completes_ret : completes (ret None).
Proof. intros h o. reflexivity. Qed.

Lemma completes_log level text (k : unit -> M (option string)) :
  completes (k tt) -> completes (bind (log level text) k).
Proof. intros Hk h o. rewrite bind_log. apply Hk. Qed.

Lemma completes_emit a (k : unit -> M (option string)) :
  completes (k tt) -> completes (bind (emit a) k).
Proof. intros Hk h o. rewrite bind_emit. apply Hk. Qed.

Lemma completes_get_options (k : Options -> M (option string)) :
  (forall o, completes (k o)) -> completes (bind get_options k).
Proof. intros Hk h o. rewrite bind_get_options. apply Hk. Qed.

Lemma completes_put_options o' (k : unit -> M (option string)) :
  completes (k tt) -> completes (bind (put_options o') k).
Proof. intros Hk h o. rewrite bind_put_options. apply Hk. Qed.

Lemma completes_remote w c : succeeds w -> completes (remote w c).
Proof. intros Hok h o. rewrite remote_eq. apply Hok. Qed.

Lemma completes_bind (m k : M (option string)) :
  completes m -> completes k -> completes (bind m (fun _ => k)).
Proof.
  intros Hm Hk h o. rewrite bind_eq, Hm. apply Hk.
Qed.

Lemma completes_eachSeries A (items : list A) it :
  (forall item, completes (it item)) -> completes (eachSeries items it).
Proof.
  intros Hit. induction items as [|item rest IH]; intros h o;
    [reflexivity|].
  simpl eachSeries. rewrite bind_eq, Hit. apply IH.
Qed.

(** Takes apart a task whose remote calls all succeed. *)
Ltac completes Hok :=
  repeat first
    [ apply completes_remote; exact Hok
    | apply completes_ret
    | apply completes_log
    | apply completes_emit
    | apply completes_get_options; intro
    | apply completes_put_options
    | apply completes_eachSeries; intro
    | apply completes_bind
    | match goal with
      | |- completes (if ?b then _ else _) => destruct b
      | |- completes (match ?x with _ => _ end) => destruct x
      end ].

Lemma completes_run_commands w commands :
  succeeds w -> completes (run_commands w commands).
Proof. intros Hok. unfold run_commands. completes Hok. Qed.

Lemma connect_completes w h o :
  obliges w -> outcome (connectToRemoteTask w h o) = Returned None.
Proof.
  intros (Hconnect & _).
  destruct (connect_task w h o) as (seen & _ & _ & ->).
  now rewrite Hconnect.
Qed.

Lemma hook_completes w hk h o :
  obliges w -> outcome (run_hook w hk h o) = Returned None.
Proof.
  intros (_ & _ & _ & Hhook & _). rewrite run_hook_eq. apply Hhook.
Qed.

Lemma middleware_completes w p commandsFunction h o :
  obliges w ->
  outcome (middlewareCallbackExecute w p commandsFunction h o) = Returned None.
Proof.
  intros (_ & Hok & _ & _ & Hmw).
  destruct commandsFunction; unfold middlewareCallbackExecute.
  - reflexivity.
  - now apply completes_run_commands.
  - change (outcome (middlewareCallbackExecute w p MiddlewareFunction h o)
            = Returned None).
    rewrite middleware_function_eq. cbn zeta.
    destruct (Hmw p (h ++ [Resolve p]) o) as [commands ->].
    cbn [prepend outcome]. now apply completes_run_commands.
Qed.

Lemma compress_completes w h o :
  obliges w -> outcome (compressReleaseTask w h o) = Returned None.
Proof.
  intros (_ & _ & Hcompress & _).
  unfold compressReleaseTask. rewrite bind_get_options.
  destruct (negb (mode o =? "archive")); [reflexivity|].
  rewrite !bind_log, bind_emit, bind_get_history.
  match goal with
  | |- context [compress_reply w ?hh] =>
      destruct (Hcompress hh) as [fileSize ->]
  end.
  now rewrite !bind_log.
Qed.

Lemma upload_completes w rel h o :
  obliges w -> outcome (uploadArchiveTask w rel h o) = Returned None.
Proof.
  intros (_ & Hok & _).
  unfold uploadArchiveTask. rewrite bind_get_options.
  destruct (negb (mode o =? "archive")); [reflexivity|].
  rewrite !bind_log, bind_remote, Hok. now rewrite !bind_log.
Qed.

Lemma decompress_completes w rel h o :
  obliges w -> can_unpack rel o ->
  outcome (decompressArchiveOnRemoteTask w rel h o) = Returned None.
Proof.
  intros (_ & Hok & _) Hcan.
  unfold decompressArchiveOnRemoteTask. rewrite bind_get_options.
  destruct (String.eqb_spec (mode o) "archive") as [Hmode|Hmode];
    [|reflexivity].
  specialize (Hcan Hmode). cbn [negb]. rewrite !bind_log.
  destruct (untarMap _ _ _) as [text|]; [|now elim Hcan].
  rewrite bind_ret, bind_remote, Hok. now rewrite !bind_log.
Qed.

Lemma cleanup_completes w h o :
  obliges w -> outcome (remoteCleanupTask w h o) = Returned None.
Proof.
  intros (_ & Hok & _).
  unfold remoteCleanupTask. rewrite !bind_log, bind_get_options.
  destruct (releasesToKeep o <? 1)%Z;
    [rewrite bind_put_options | rewrite bind_ret];
    rewrite bind_get_options, bind_remote, Hok; now rewrite !bind_log.
Qed.

Lemma eachSeries_completes_in A (items : list A) it :
  (forall item, In item items -> completes (it item)) ->
  completes (eachSeries items it).
Proof.
  induction items as [|item rest IH]; intros Hit h o; [reflexivity|].
  simpl eachSeries. rewrite bind_eq, (Hit item) by now left.
  apply IH. intros item' Hin. apply Hit. now right.
Qed.

Lemma share_completes w rel h o :
  obliges w -> can_link w o ->
  outcome (updateSharedSymbolicLinkOnRemoteTask w rel h o) = Returned None.
Proof.
  intros (_ & Hok & _) Hlink.
  unfold updateSharedSymbolicLinkOnRemoteTask. rewrite bind_get_options.
  destruct (share o) as [entries|] eqn:Hshare; [|reflexivity].
  destruct (length_equals_zero w entries); [reflexivity|].
  match goal with
  | |- outcome (?m h o) = Returned None =>
      cut (completes m); [intros Hm; apply Hm|]
  end.
  apply completes_log, completes_bind; [|now completes Hok].
  apply eachSeries_completes_in. intros [folder configValue] Hin.
  destruct (Hlink entries folder configValue Hshare Hin) as [upwardPath Hup].
  intros h' o'. unfold shareItem, reversePath. rewrite Hup, bind_ret.
  revert h' o'.
  match goal with
  | |- forall h o, outcome (?m h o) = Returned None => change (completes m)
  end.
  now completes Hok.
Qed.

Lemma delete_completes w h o :
  can_delete w o -> outcome (deleteLocalArchiveTask w h o) = Returned None.
Proof.
  intros Hdelete. unfold deleteLocalArchiveTask. rewrite bind_get_options.
  destruct (String.eqb_spec (mode o) "archive") as [Hmode|Hmode];
    [|reflexivity].
  destruct (deleteLocalArchiveAfterDeployment o) eqn:Hflag; [|reflexivity].
  cbn [negb orb]. rewrite bind_log, (Hdelete Hmode Hflag), bind_emit.
  now rewrite bind_log.
Qed.

Lemma task_completes w rel t h o :
  obliges w -> can_unpack rel o -> can_delete w o -> can_link w o ->
  outcome (run_task w rel t h o) = Returned None.
Proof.
  intros Hobliges Hcan Hdelete Hlink. pose proof Hobliges as (_ & Hok & _).
  destruct t; unfold run_task;
    try (now apply share_completes);
    try (now apply delete_completes);
    try (unfold onBeforeDeployTask, onBeforeLinkTask, onAfterDeployTask;
         now apply hook_completes);
    try (unfold onBeforeDeployExecuteTask, onBeforeLinkExecuteTask,
           onAfterDeployExecuteTask;
         rewrite bind_get_options; now apply middleware_completes);
    try (now apply connect_completes);
    try (now apply compress_completes);
    try (now apply upload_completes);
    try (now apply decompress_completes);
    try (now apply cleanup_completes);
    revert h o Hcan Hdelete Hlink;
    match goal with
    | |- forall h o, _ -> _ -> _ -> outcome (?m h o) = Returned None =>
        intros h o _ _ _; revert h o; change (completes m)
    end;
    unfold createReleaseFolderOnRemoteTask, uploadReleaseTask,
      createFolderTask,
      makeDirectoriesWritableTask, makeFilesExecutableTask,
      updateCurrentSymbolicLinkOnRemoteTask,
      closeConnectionTask, removeReleaseTask;
    now completes Hok.
Qed.

Lemma series_completes w rel tasks h o :
  obliges w -> user_code_keeps_options w ->
  can_unpack rel o -> can_delete w o -> can_link w o ->
  result (series w rel tasks h o) = Returned None.
Proof.
  intros Hobliges Huser. revert h o.
  induction tasks as [|t rest IH]; intros h o Hcan Hdelete Hlink;
    [reflexivity|].
  rewrite series_cons,
    (@task_completes w rel t h o Hobliges Hcan Hdelete Hlink).
  cbn [result].
  apply IH; rewrite task_options by exact Huser;
    destruct t; trivial;
    destruct (releasesToKeep o <? 1)%Z; trivial.
Qed.

(** When every collaborator obliges, the hooks and middleware functions
    leave the options alone, in archive mode the archive type is one the
    unpack stage knows, the runtime accepts [fs.unlink] without a callback
    if a local archive is to be deleted, and the helper returns an upward
    path for every entry of the share mapping, a run of [deployRelease]
    goes through all its twenty stages and calls the caller's [done] once;
    and a run of [removeRelease] goes through its three stages and does
    the same. *)
Theorem obliging_run_completes (w : World) (rel : Release)
        (h : list Action) (o : Options) :
  obliges w -> user_code_keeps_options w ->
  can_unpack rel o -> can_delete w o -> can_link w o ->
  (result (deployRelease w rel Caller h o) = Returned tt
   /\ started (events (deployRelease w rel Caller h o)) = deployTasks
   /\ completions (events (deployRelease w rel Caller h o)) = [[]])
  /\ (result (removeRelease w rel Caller h o) = Returned tt
      /\ started (events (removeRelease w rel Caller h o)) = removeTasks
      /\ completions (events (removeRelease w rel Caller h o)) = [[]]).
Proof.
  intros Hobliges Huser Hcan Hdelete Hlink.
  unfold deployRelease, removeRelease, or_noop.
  rewrite !finally_started, !finally_completions, !series_completions.
  pose proof (@series_completes w rel deployTasks h o Hobliges Huser Hcan
                                Hdelete Hlink) as Hd.
  pose proof (@series_completes w rel removeTasks h o Hobliges Huser Hcan
                                Hdelete Hlink) as Hr.
  rewrite (@series_started_all w rel deployTasks h o Hd),
    (@series_started_all w rel removeTasks h o Hr).
  rewrite Hd, Hr.
  destruct (series w rel deployTasks h o) as [evs1 o1 res1].
  destruct (series w rel removeTasks h o) as [evs2 o2 res2].
  simpl in Hd, Hr. subst res1 res2. simpl. auto.
Qed.

Lemma obliging_obliges : obliges obliging.
Proof.
  repeat split; try reflexivity; intros; eexists; reflexivity.
Qed.

Lemma obliging_run_completes_witness :
  (result (deployRelease obliging sample_release Caller [] synchronize_options)
   = Returned tt
   /\ started (events (deployRelease obliging sample_release Caller []
                                     synchronize_options))
      = deployTasks
   /\ completions (events (deployRelease obliging sample_release Caller []
                                         synchronize_options))
      = [[]])
  /\ (result (removeRelease obliging sample_release Caller []
                            synchronize_options)
      = Returned tt
      /\ started (events (removeRelease obliging sample_release Caller []
                                        synchronize_options))
         = removeTasks
      /\ completions (events (removeRelease obliging sample_release Caller []
                                            synchronize_options))
         = [[]]).
Proof.
  apply obliging_run_completes.
  - exact obliging_obliges.
  - exact obliging_keeps_options.
  - intros Hmode. vm_compute in Hmode. discriminate.
  - intros Hmode. vm_compute in Hmode. discriminate.
  - intros entries folder configValue Hshare. vm_compute in Hshare.
    discriminate.
Defined.

(** On a Node that insists on a callback, a run in archive mode that is to
    delete the local archive ends in stage nineteen: the connection is not
    closed and [done] is not called. *)
Example archive_run_throws_at_delete :
  result (deployRelease obliging sample_release Caller [] archive_options)
  = Threw "TypeError: Callback must be a function"
  /\ started (events (deployRelease obliging sample_release Caller []
                                    archive_options))
     = firstn 19 deployTasks
  /\ completions (events (deployRelease obliging sample_release Caller []
                                        archive_options))
     = []
  /\ result (deployRelease legacy_node sample_release Caller []
                           archive_options)
     = Returned tt.
Proof. vm_compute. auto. Qed.

